(** * KineticLab: the particle-confinement simulator of [src/components/Canvas.tsx]

    A shallow embedding of the [Canvas] component: the (re)initialisation
    effect, [runPhysicsStep], and the frame driver [tick] with its trail
    bookkeeping and telemetry window.

    JavaScript numbers are kept abstract behind the interface [JSNumber], so
    that the component is written once, the way the source reads, and is then
    studied at two instances:
    - [RNum] and [RMath], the real numbers: arithmetic without rounding, used
      for the algebraic properties of the stepper (impulses, reflection, drag);
    - [FloatNum], IEEE-754 binary64 (the kernel's primitive floats), used where
      the special values of JavaScript arithmetic decide the outcome (a
      division by zero in the telemetry window) and to evaluate scenarios.

    Quantities that the source only ever counts are natural numbers: array
    lengths and indices, the loop bound [precision], the canvas size, the
    frame counter and the collision counter.  The refs of the component are
    one record, passed explicitly; the calls of [Math.random()] are a stream;
    the canvas is an input of each frame; what a frame draws and emits is an
    output next to the new state. *)

From Stdlib Require Import Floats Uint63.
From Stdlib Require Import Reals Lra Lia List Bool Arith ZArith String.
Import ListNotations.

Set Implicit Arguments.

(** ** JavaScript numbers *)

Class JSNumber (num : Type) := {
  lit : Z -> num;                      (* an integer literal *)
  nadd : num -> num -> num;
  nsub : num -> num -> num;
  nmul : num -> num -> num;
  ndiv : num -> num -> num;
  nneg : num -> num;                   (* unary minus *)
  nlt : num -> num -> bool;            (* [a < b]; [a > b] is [nlt b a] *)
  same : num -> num -> bool;           (* [Object.is], React's dependency test *)
  Math_sqrt : num -> num;
  Math_abs : num -> num
}.

(** The functions of [Math] that ECMAScript leaves implementation-approximated,
    and the constant [Math.PI]. *)
Class JSMath (num : Type) := {
  Math_cos : num -> num;
  Math_sin : num -> num;
  Math_pow : num -> num -> num;
  Math_PI : num
}.

Declare Scope js_scope.
Delimit Scope js_scope with js.
Notation "a + b" := (nadd a b) : js_scope.
Notation "a - b" := (nsub a b) : js_scope.
Notation "a * b" := (nmul a b) : js_scope.
Notation "a / b" := (ndiv a b) : js_scope.
Notation "- a" := (nneg a) : js_scope.
Notation "a <? b" := (nlt a b) : js_scope.
Notation "a >? b" := (nlt b a) : js_scope.

(** A decimal literal [p/q] with an exactly representable numerator and
    denominator: [0.5] is [dec 1 2], [0.44] is [dec 44 100].  Under IEEE-754 the
    correctly rounded quotient is the double the literal denotes. *)
Definition dec {num} `{JSNumber num} (p q : Z) : num := (lit p / lit q)%js.

(** [array.length] as a number. *)
Definition of_nat {num} `{JSNumber num} (n : nat) : num := lit (Z.of_nat n).

(** *** The reals *)

Definition Rltb (a b : R) : bool := if Rlt_dec a b then true else false.
Definition Rsame (a b : R) : bool := if Req_dec_T a b then true else false.

(** [Math.pow] on the reals.  For a positive base it is [exp (y * ln x)]; the
    base [0] gives [1] at exponent [0] and [0] at a positive exponent.  The
    other cases of JavaScript's [Math.pow] (a negative base, the base [0] at a
    negative exponent) have values that are not real numbers or depend on the
    parity of the exponent; no statement below is made about them. *)
Definition Rpow_js (b e : R) : R :=
  if Rlt_dec 0 b then Rpower b e
  else if Req_dec_T e 0 then 1%R else 0%R.

#[export] Instance RNum : JSNumber R := {|
  lit := IZR;
  nadd := Rplus;
  nsub := Rminus;
  nmul := Rmult;
  ndiv := Rdiv;
  nneg := Ropp;
  nlt := Rltb;
  same := Rsame;
  Math_sqrt := sqrt;
  Math_abs := Rabs
|}.

#[export] Instance RMath : JSMath R := {|
  Math_cos := cos;
  Math_sin := sin;
  Math_pow := Rpow_js;
  Math_PI := PI
|}.

(** *** IEEE-754 binary64 *)

Definition float_of_Z (z : Z) : float :=
  match z with
  | Z0 => PrimFloat.zero
  | Zpos _ => PrimFloat.of_uint63 (Uint63.of_Z z)
  | Zneg p => PrimFloat.opp (PrimFloat.of_uint63 (Uint63.of_Z (Zpos p)))
  end.

(** [Object.is]: every NaN is the same value, and [+0] differs from [-0]
    (told apart by the sign of the reciprocal). *)
Definition float_same (a b : float) : bool :=
  (PrimFloat.is_nan a && PrimFloat.is_nan b)
  || (PrimFloat.eqb a b
      && PrimFloat.eqb (PrimFloat.div PrimFloat.one a) (PrimFloat.div PrimFloat.one b)).

#[export] Instance FloatNum : JSNumber float := {|
  lit := float_of_Z;
  nadd := PrimFloat.add;
  nsub := PrimFloat.sub;
  nmul := PrimFloat.mul;
  ndiv := PrimFloat.div;
  nneg := PrimFloat.opp;
  nlt := PrimFloat.ltb;
  same := float_same;
  Math_sqrt := PrimFloat.sqrt;
  Math_abs := PrimFloat.abs
|}.

(** Any float functions may stand for the approximated ones. *)
Definition FloatMath (cosF sinF : float -> float) (powF : float -> float -> float)
    : JSMath float := {|
  Math_cos := cosF;
  Math_sin := sinF;
  Math_pow := powF;
  Math_PI := 0x1.921fb54442d18p+1%float
|}.

(** ** [src/types]: the data model *)

Section Types.

Context {num : Type}.

Record Vector2 := mkVector2 { x : num; y : num }.

Record Ball := mkBall {
  id : num * nat;                    (* the template string [`${config.id}-${i}`] *)
  pos : Vector2;
  vel : Vector2;
  acc : Vector2;
  radius : num;
  color : string;
  trail : list Vector2
}.

Inductive ShapeType := triangle | square | pentagon | hexagon | octagon | star.

Record SimulationConfig := mkConfig {
  cfg_id : num;
  name : string;
  shapeType : ShapeType;
  vertexCount : nat;
  gravity : num;
  friction : num;
  restitution : num;
  rotationSpeed : num;
  ballCount : nat;
  ballSize : num;
  initialSpeed : num;
  nuanceDescription : string
}.

Record GlobalSettings := mkSettings {
  timeScale : num;
  gravityMultiplier : num;
  gravityAngle : num;
  viscosity : num;
  rotationMultiplier : num;
  bouncinessMultiplier : num;
  showVectors : bool;
  showTrails : bool;
  precision : nat;
  useHeatmap : bool;
  enableAudio : bool
}.

End Types.

Arguments Vector2 : clear implicits.
Arguments Ball : clear implicits.
Arguments SimulationConfig : clear implicits.
Arguments GlobalSettings : clear implicits.

(** ** [src/utils/math]: vector operations and container geometry

    The module [utils/math] is imported by [Canvas.tsx] but is not among the
    sources; its functions are modelled from the specification.  Section 2
    names the vector operations (add, subtract, scalar multiply, dot product,
    magnitude, normalize), section 3 says each returns a new value, and
    section 4.1 describes the vertex generators. *)

Section VectorMath.

Context {num : Type} `{JSNumber num} `{JSMath num}.
Local Open Scope js_scope.

(** Modelled from the spec: [add] of [utils/math], the componentwise sum. *)
Definition add (a b : Vector2 num) : Vector2 num :=
  {| x := x a + x b; y := y a + y b |}.

(** Modelled from the spec: [sub] of [utils/math], the componentwise
    difference. *)
Definition sub (a b : Vector2 num) : Vector2 num :=
  {| x := x a - x b; y := y a - y b |}.

(** Modelled from the spec: [mult] of [utils/math], the product of a vector
    by a scalar. *)
Definition mult (v : Vector2 num) (s : num) : Vector2 num :=
  {| x := x v * s; y := y v * s |}.

(** Modelled from the spec: [dot] of [utils/math], the dot product. *)
Definition dot (a b : Vector2 num) : num := x a * x b + y a * y b.

(** Modelled from the spec: [mag] of [utils/math], the Euclidean length. *)
Definition mag (v : Vector2 num) : num := Math_sqrt (x v * x v + y v * y v).

(** Modelled from the spec: [normalize] of [utils/math], the vector divided
    by its length.  The spec names no guard for the zero vector (section 4.2
    calls that normalisation singular); the statements below that depend on
    a unit normal are about vectors of non-zero length. *)
Definition normalize (v : Vector2 num) : Vector2 num :=
  let m := mag v in {| x := x v / m; y := y v / m |}.

(** Modelled from the spec: [generatePolygon] of [utils/math].  Section
    4.1: [n] vertices at angles [rotation + 2 pi k / n], [k] in [0, n), each
    at distance [radius] from [center], in increasing-angle order. *)
Definition generatePolygon (n : nat) (r : num) (center : Vector2 num)
    (rot : num) : list (Vector2 num) :=
  map (fun k =>
         let a := rot + (lit 2 * Math_PI * of_nat k) / of_nat n in
         {| x := x center + Math_cos a * r; y := y center + Math_sin a * r |})
      (seq 0 n).

(** Modelled from the spec: [generateStar] of [utils/math].  Section 4.1:
    [2n] vertices alternating the outer and the inner radius at angles
    spaced [pi / n] apart, same rotation convention. *)
Definition generateStar (n : nat) (outer inner : num) (center : Vector2 num)
    (rot : num) : list (Vector2 num) :=
  map (fun k =>
         let r := if Nat.even k then outer else inner in
         let a := rot + (Math_PI * of_nat k) / of_nat n in
         {| x := x center + Math_cos a * r; y := y center + Math_sin a * r |})
      (seq 0 (2 * n)).

End VectorMath.

(** ** [src/components/Canvas.tsx]: the component *)

Definition TRAIL_LENGTH : nat := 12.

(** The canvas element as [tick] reads it: [canvasRef.current] may be null
    (an [option] at the call), [offsetParent] may be null, [getContext('2d')]
    may return null.  After the resize at the top of [tick] the drawing size
    is the client size, so only that is kept. *)
Record CanvasEl := mkCanvas {
  offsetParent : bool;
  context2d : bool;
  clientWidth : nat;
  clientHeight : nat
}.

Section State.

Context {num : Type}.

(** The refs of the component: [stateRef], [collisionCountRef],
    [totalKeRef], [statsTickRef].  [played] logs the forces handed to
    [playCollisionSound], in call order. *)
Record SimState := mkState {
  balls : list (Ball num);
  rotation : num;
  mousePos : option (Vector2 num);
  collisionCount : nat;
  totalKe : num;
  statsTick : nat;
  played : list num
}.

(** What one completed [tick] shows: the disc drawn for each particle
    ([ctx.arc(sx, sy, ball.radius, ...)]) and the call of [onStatsUpdate],
    if the window closed on this frame. *)
Record Frame := mkFrame {
  arcs : list (num * num * num);
  emitted : option (num * nat)
}.

Definition set_pos (b : Ball num) (p : Vector2 num) : Ball num :=
  {| id := id b; pos := p; vel := vel b; acc := acc b; radius := radius b;
     color := color b; trail := trail b |}.

Definition set_vel (b : Ball num) (v : Vector2 num) : Ball num :=
  {| id := id b; pos := pos b; vel := v; acc := acc b; radius := radius b;
     color := color b; trail := trail b |}.

Definition set_trail (b : Ball num) (t : list (Vector2 num)) : Ball num :=
  {| id := id b; pos := pos b; vel := vel b; acc := acc b; radius := radius b;
     color := color b; trail := t |}.

(** [arr[i] = v] for an index within the array. *)
Fixpoint update {A : Type} (i : nat) (v : A) (l : list A) : list A :=
  match l, i with
  | [], _ => []
  | _ :: r, O => v :: r
  | a :: r, S i' => a :: update i' v r
  end.

(** [balls.forEach(f)] where [f] rewrites the ball in place and may record
    collision events (their impact forces). *)
Fixpoint forEach (f : Ball num -> Ball num * list num) (bs : list (Ball num))
    : list (Ball num) * list num :=
  match bs with
  | [] => ([], [])
  | b :: r =>
      let '(b', h) := f b in
      let '(r', hs) := forEach f r in
      (b' :: r', h ++ hs)
  end.

End State.

Arguments SimState : clear implicits.
Arguments Frame : clear implicits.

Section Canvas.

Context {num : Type} `{JSNumber num} `{JSMath num}.
Local Open Scope js_scope.

(** The props of the component. *)
Variable config : SimulationConfig num.
Variable globalSettings : GlobalSettings num.

(** The values the refs are created with. *)
Definition initialState : SimState num :=
  {| balls := []; rotation := lit 0; mousePos := None;
     collisionCount := 0; totalKe := lit 0; statsTick := 0; played := [] |}.

(** *** The initialisation effect (lines 59-79)

    [rnd k] is the result of the [k]-th call of [Math.random()] made by the
    effect; each particle draws four. *)
Definition spawn (rnd : nat -> num) (i : nat) : Ball num :=
  let angle := rnd (4 * i)%nat * Math_PI * lit 2 in
  let dist := rnd (4 * i + 1)%nat * lit 20 in
  let speed := initialSpeed config * (dec 8 10 + rnd (4 * i + 2)%nat * dec 4 10) in
  let velAngle := rnd (4 * i + 3)%nat * Math_PI * lit 2 in
  {| id := (cfg_id config, i);
     pos := {| x := Math_cos angle * dist; y := Math_sin angle * dist |};
     vel := {| x := Math_cos velAngle * speed; y := Math_sin velAngle * speed |};
     acc := {| x := lit 0; y := lit 0 |};
     radius := ballSize config;
     color := "#FFFFFF";
     trail := [] |}.

Definition initEffect (rnd : nat -> num) (st : SimState num) : SimState num :=
  {| balls := map (spawn rnd) (seq 0 (ballCount config));
     rotation := lit 0;
     mousePos := mousePos st;
     collisionCount := collisionCount st;
     totalKe := totalKe st;
     statsTick := statsTick st;
     played := played st |}.

(** *** [runPhysicsStep] (lines 81-162) *)

Definition effectiveRestitution : num :=
  restitution config * bouncinessMultiplier globalSettings.

(** Lines 87-89: the gravity vector. *)
Definition gravityX : num :=
  Math_cos ((gravityAngle globalSettings * Math_PI) / lit 180)
  * gravity config * gravityMultiplier globalSettings.

Definition gravityY : num :=
  Math_sin ((gravityAngle globalSettings * Math_PI) / lit 180)
  * gravity config * gravityMultiplier globalSettings.

(** Lines 93-98, the velocity under gravity and then drag. *)
Definition kick (dt : num) (v : Vector2 num) : Vector2 num :=
  let v1 := {| x := x v + gravityX * dt; y := y v + gravityY * dt |} in
  let airDrag := lit 1 - (viscosity globalSettings + friction config) in
  mult v1 (Math_pow airDrag dt).

(** Lines 93-110: environmental forces, drag, pointer attraction, and the
    position update. *)
Definition applyForces (dt : num) (mouse : option (Vector2 num))
    (ball : Ball num) : Ball num :=
  let v2 := kick dt (vel ball) in
  let v3 :=
    match mouse with
    | Some m =>
        let toMouse := sub m (pos ball) in
        let mouseDist := mag toMouse in
        if mouseDist <? lit 120 then
          let force := mult (normalize toMouse) (lit 400 / (mouseDist + lit 20)) in
          add v2 (mult force dt)
        else v2
    | None => v2
    end in
  set_pos (set_vel ball v3) (add (pos ball) (mult v3 dt)).

(** Lines 116-118: the normal of the edge from [p1] to [p2]. *)
Definition edgeNormal (p1 p2 : Vector2 num) : Vector2 num :=
  let edge := sub p2 p1 in
  let n := normalize {| x := - y edge; y := x edge |} in
  if dot n p1 >? lit 0 then {| x := x n * lit (-1); y := y n * lit (-1) |} else n.

(** Lines 120-121: the signed distance of the ball from the edge. *)
Definition edgeDist (p1 p2 : Vector2 num) (ball : Ball num) : num :=
  dot (sub (pos ball) p1) (edgeNormal p1 p2).

(** Lines 114-132: the body of the edge loop. *)
Definition collideEdge (p1 p2 : Vector2 num) (ball : Ball num)
    : Ball num * list num :=
  let n := edgeNormal p1 p2 in
  let dist := edgeDist p1 p2 ball in
  if dist <? radius ball then
    let ball1 := set_pos ball (add (pos ball) (mult n (radius ball - dist))) in
    let velDotNormal := dot (vel ball1) n in
    if velDotNormal <? lit 0 then
      let force := Math_abs velDotNormal in
      (set_vel ball1
         (sub (vel ball1) (mult n ((lit 1 + effectiveRestitution) * velDotNormal))),
       [force])
    else (ball1, [])
  else (ball, []).

Definition origin : Vector2 num := {| x := lit 0; y := lit 0 |}.

(** Lines 113-133: every edge in turn, wrapping at the last vertex. *)
Definition edgeStep (localVertices : list (Vector2 num))
    (st : Ball num * list num) (i : nat) : Ball num * list num :=
  let p1 := nth i localVertices origin in
  let p2 := nth ((i + 1) mod List.length localVertices)%nat localVertices origin in
  let '(b, h) := collideEdge p1 p2 (fst st) in
  (b, snd st ++ h).

Definition boundCollisions (localVertices : list (Vector2 num)) (ball : Ball num)
    : Ball num * list num :=
  fold_left (edgeStep localVertices) (seq 0 (List.length localVertices)) (ball, []).

(** Lines 139-159: the body of the pair loop, on the two balls it reads. *)
Definition collidePair (a b : Ball num) : Ball num * Ball num * list num :=
  let diff := sub (pos b) (pos a) in
  let d := mag diff in
  let minDist := radius a + radius b in
  if d <? minDist then
    let normal := normalize diff in
    let overlap := minDist - d in
    let a1 := set_pos a (sub (pos a) (mult normal (overlap / lit 2))) in
    let b1 := set_pos b (add (pos b) (mult normal (overlap / lit 2))) in
    let relVel := sub (vel b1) (vel a1) in
    let sepVel := dot relVel normal in
    if sepVel <? lit 0 then
      let force := Math_abs sepVel in
      let impulse := mult normal (sepVel * (lit 1 + effectiveRestitution) / lit 2) in
      (set_vel a1 (add (vel a1) impulse), set_vel b1 (sub (vel b1) impulse), [force])
    else (a1, b1, [])
  else (a, b, []).

(** The pair loop reads [state.balls[i]] and [state.balls[j]] and writes
    both back. *)
Definition resolveAt (i : nat) (st : list (Ball num) * list num) (j : nat)
    : list (Ball num) * list num :=
  match nth_error (fst st) i, nth_error (fst st) j with
  | Some a, Some b =>
      let '(a', b', h) := collidePair a b in
      (update j b' (update i a' (fst st)), snd st ++ h)
  | _, _ => st
  end.

(** Lines 138-160: for one [i], every [j > i] below [n]. *)
Definition pairRow (n : nat) (st : list (Ball num) * list num) (i : nat)
    : list (Ball num) * list num :=
  fold_left (resolveAt i) (seq (S i) (n - S i)) st.

(** Lines 137-161: [i] ascending. *)
Definition pairCollisions (bs : list (Ball num)) : list (Ball num) * list num :=
  fold_left (pairRow (List.length bs)) (seq 0 (List.length bs)) (bs, []).

Definition runPhysicsStep (dt shapeRadius : num) (localVertices : list (Vector2 num))
    (state : SimState num) : SimState num :=
  let '(bs1, h1) :=
    forEach (fun ball =>
               boundCollisions localVertices (applyForces dt (mousePos state) ball))
            (balls state) in
  let '(bs2, h2) := pairCollisions bs1 in
  let hits := h1 ++ h2 in
  {| balls := bs2;
     rotation := rotation state;
     mousePos := mousePos state;
     collisionCount := (collisionCount state + List.length hits)%nat;
     totalKe := totalKe state;
     statsTick := statsTick state;
     played := played state ++
               (if enableAudio globalSettings
                then filter (fun force => force >? lit 1) hits else []) |}.

(** *** The frame driver [tick] (lines 173-269) *)

(** Lines 190-196: [n] sub-steps; the container turns before each and its
    vertices are regenerated around the origin. *)
Fixpoint subSteps (n : nat) (subDt shapeRadius : num) (st : SimState num)
    : SimState num :=
  match n with
  | O => st
  | S n' =>
      let rot := rotation st
                 + rotationSpeed config * rotationMultiplier globalSettings * subDt in
      let st1 := {| balls := balls st; rotation := rot; mousePos := mousePos st;
                    collisionCount := collisionCount st; totalKe := totalKe st;
                    statsTick := statsTick st; played := played st |} in
      let localVertices :=
        match shapeType config with
        | star => generateStar (vertexCount config) shapeRadius
                               (shapeRadius * dec 4 10) origin rot
        | _ => generatePolygon (vertexCount config) shapeRadius origin rot
        end in
      subSteps n' subDt shapeRadius (runPhysicsStep subDt shapeRadius localVertices st1)
  end.

(** Lines 233-236: the trail of one ball, given its screen position. *)
Definition updateTrail (p : Vector2 num) (t : list (Vector2 num))
    : list (Vector2 num) :=
  if showTrails globalSettings && (timeScale globalSettings >? lit 0) then
    let t1 := t ++ [p] in
    if (TRAIL_LENGTH <? List.length t1)%nat then tl t1 else t1
  else if negb (showTrails globalSettings) then [] else t.

Definition screenPos (center : Vector2 num) (ball : Ball num) : Vector2 num :=
  {| x := x center + x (pos ball); y := y center + y (pos ball) |}.

(** Lines 227-259, the particle loop: the kinetic energy summed in [frameKe],
    the trails, and the discs drawn. *)
Definition frameKe (bs : list (Ball num)) : num :=
  fold_left (fun ke ball => let speed := mag (vel ball) in
                            ke + dec 1 2 * speed * speed)
            bs (lit 0).

Definition drawBall (center : Vector2 num) (ball : Ball num) : Ball num :=
  set_trail ball (updateTrail (screenPos center ball) (trail ball)).

Definition drawArc (center : Vector2 num) (ball : Ball num) : num * num * num :=
  (x (screenPos center ball), y (screenPos center ball), radius ball).

(** Lines 188-197: the simulation advances only at a positive time scale. *)
Definition advance (shapeRadius : num) (st : SimState num) : SimState num :=
  if timeScale globalSettings >? lit 0 then
    subSteps (precision globalSettings)
             (timeScale globalSettings / of_nat (precision globalSettings))
             shapeRadius st
  else st.

(** Lines 261-266: the telemetry window.  [ke] is the frame's kinetic
    energy; the result carries the arguments of [onStatsUpdate] when the
    window closes. *)
Definition telemetry (ke : num) (st : SimState num)
    : SimState num * option (num * nat) :=
  let total := totalKe st + ke in
  let ticks := S (statsTick st) in
  if (20 <=? ticks)%nat then
    ({| balls := balls st; rotation := rotation st; mousePos := mousePos st;
        collisionCount := 0; totalKe := lit 0; statsTick := 0;
        played := played st |},
     Some (total / (lit 20 * of_nat (List.length (balls st))), collisionCount st))
  else
    ({| balls := balls st; rotation := rotation st; mousePos := mousePos st;
        collisionCount := collisionCount st; totalKe := total;
        statsTick := ticks; played := played st |},
     None).

(** Lines 227-259 on the state: every ball with its trail brought up to date. *)
Definition drawn (center : Vector2 num) (st1 : SimState num) : SimState num :=
  {| balls := map (drawBall center) (balls st1);
     rotation := rotation st1; mousePos := mousePos st1;
     collisionCount := collisionCount st1; totalKe := totalKe st1;
     statsTick := statsTick st1; played := played st1 |}.

Definition shapeRadiusOf (cv : CanvasEl) : num :=
  of_nat (Nat.min (clientWidth cv) (clientHeight cv)) * dec 44 100.

Definition centerOf (cv : CanvasEl) : Vector2 num :=
  {| x := of_nat (clientWidth cv) / lit 2; y := of_nat (clientHeight cv) / lit 2 |}.

(** One call of [tick].  [None] as the frame is the early return of lines
    175 and 177. *)
Definition tick (canvas : option CanvasEl) (st : SimState num)
    : SimState num * option (Frame num) :=
  match canvas with
  | None => (st, None)
  | Some cv =>
      if negb (offsetParent cv) then (st, None)
      else if negb (context2d cv) then (st, None)
      else
        let center := centerOf cv in
        let st1 := advance (shapeRadiusOf cv) st in
        let ke := frameKe (balls st1) in
        let discs := map (drawArc center) (balls st1) in
        let '(st3, stats) := telemetry ke (drawn center st1) in
        (st3, Some {| arcs := discs; emitted := stats |})
  end.

(** Successive frames, one canvas reading per frame. *)
Fixpoint frames (cvs : list (option CanvasEl)) (st : SimState num)
    : SimState num * list (option (Frame num)) :=
  match cvs with
  | [] => (st, [])
  | cv :: rest =>
      let '(st1, f) := tick cv st in
      let '(st2, fs) := frames rest st1 in
      (st2, f :: fs)
  end.

(** *** The dependency list of the initialisation effect (line 79) *)

Definition depsSame (prev : SimulationConfig num) : bool :=
  same (cfg_id prev) (cfg_id config)
  && Nat.eqb (ballCount prev) (ballCount config)
  && same (initialSpeed prev) (initialSpeed config)
  && same (ballSize prev) (ballSize config).

(** A render with the props [config], after a render with [prev] ([None] on
    mount): the effect runs when a dependency changed. *)
Definition onRender (prev : option (SimulationConfig num)) (rnd : nat -> num)
    (st : SimState num) : SimState num :=
  match prev with
  | None => initEffect rnd st
  | Some c => if depsSame c then st else initEffect rnd st
  end.

(** *** The pointer handlers (lines 279-283) *)

Definition onMouseMove (clientX clientY left top width height : num)
    (st : SimState num) : SimState num :=
  {| balls := balls st; rotation := rotation st;
     mousePos := Some {| x := clientX - left - width / lit 2;
                         y := clientY - top - height / lit 2 |};
     collisionCount := collisionCount st; totalKe := totalKe st;
     statsTick := statsTick st; played := played st |}.

Definition onMouseLeave (st : SimState num) : SimState num :=
  {| balls := balls st; rotation := rotation st; mousePos := None;
     collisionCount := collisionCount st; totalKe := totalKe st;
     statsTick := statsTick st; played := played st |}.

End Canvas.

(** ** More of [Math]: extrema and rounding

    [Math.min], [Math.max] and [Math.floor], used by the sound, the heat map
    and the sparkline.  Over the reals they are the minimum, the maximum and
    the integer part. *)

Class JSRound (num : Type) := {
  Math_min : num -> num -> num;
  Math_max : num -> num -> num;
  Math_floor : num -> num
}.

Definition Rfloor (r : R) : R := IZR (Int_part r).

#[export] Instance RRound : JSRound R := {|
  Math_min := Rmin;
  Math_max := Rmax;
  Math_floor := Rfloor
|}.

(** ** [src/components/Canvas.tsx]: sound and colour *)

Section Rendering.

Context {num : Type} `{JSNumber num} `{JSRound num}.
Local Open Scope js_scope.

(** What [playCollisionSound] asks of the audio context: a sine oscillator
    whose frequency and gain start at the given values and ramp exponentially
    to the end values over the duration. *)
Record Tone := mkTone {
  startFrequency : num;
  endFrequency : num;
  startGain : num;
  endGain : num;
  duration : num
}.

(** Lines 21-40. *)
Definition playCollisionSound (force : num) : Tone :=
  {| startFrequency := lit 100 + Math_min (force * lit 5) (lit 2000);
     endFrequency := lit 10;
     startGain := Math_min (force * dec 5 100) (dec 2 10);
     endGain := dec 1 1000;
     duration := dec 1 10 |}.

(** Lines 164-171, [getHeatmapColor]: the three channels of the string
    [`rgb(${r}, ${g}, ${b})`]. *)
Definition getHeatmapColor (speed : num) : num * num * num :=
  let maxSpeed := lit 15 in
  let ratio := Math_min (speed / maxSpeed) (lit 1) in
  let r := Math_floor (lit 100 + lit 155 * ratio) in
  let g := Math_floor (lit 40 * (lit 1 - ratio)) in
  let b := Math_floor (lit 40 * (lit 1 - ratio)) in
  (r, g, b).

(** Line 249: the fill of a particle's disc, white being [(255, 255, 255)]. *)
Definition fillStyle (useHeat : bool) (ball : Ball num) : num * num * num :=
  if useHeat then getHeatmapColor (mag (vel ball))
  else (lit 255, lit 255, lit 255).

End Rendering.

Arguments Tone : clear implicits.

(** ** [SimulationCard]: the telemetry read-out and its history *)

Module SimulationCard.

Section Card.

Context {num : Type} `{JSNumber num} `{JSRound num}.
Local Open Scope js_scope.

(** The state of the card: [resetKey], [telemetry] and [keHistory]. *)
Record Telemetry := mkTelemetry { ke : num; collisions : nat }.

Record CardState := mkCard {
  resetKey : nat;
  telemetry : Telemetry;
  keHistory : list num
}.

Definition initialCard : CardState :=
  {| resetKey := 0; telemetry := {| ke := lit 0; collisions := 0 |}; keHistory := [] |}.

(** [arr.slice(-n)]: the last [n] elements, all of them when there are
    fewer. *)
Definition slice_last {A : Type} (n : nat) (l : list A) : list A :=
  skipn (List.length l - n) l.

(** [handleStats], the observer handed to the canvas as [onStatsUpdate]. *)
Definition handleStats (s : CardState) (kev : num) (col : nat) : CardState :=
  {| resetKey := resetKey s;
     telemetry := {| ke := kev; collisions := col |};
     keHistory := slice_last 100 (keHistory s ++ [kev]) |}.

(** The reset button: [setResetKey(k => k + 1)]. *)
Definition onReset (s : CardState) : CardState :=
  {| resetKey := S (resetKey s); telemetry := telemetry s; keHistory := keHistory s |}.

(** The canvas is keyed by [resetKey]: a new key mounts a new canvas, with
    refs at their initial values, whose initialisation effect runs. *)
Definition remount `{JSMath num} (config : SimulationConfig num) (rnd : nat -> num)
    : SimState num :=
  initEffect config rnd initialState.

(** The sparkline effect: nothing is drawn without the small canvas (it is
    rendered only in the focused card) or with fewer than two readings;
    otherwise the polyline through these points, on a canvas of [w] by [h]. *)
Definition sparkline (canvas : option (nat * nat)) (hist : list num)
    : option (list (num * num)) :=
  match canvas with
  | Some (w, h) =>
      if (1 <? List.length hist)%nat then
        let maxKe := fold_right Math_max (lit 50) hist in
        Some (map (fun iv : nat * num =>
                     ((of_nat (fst iv) / lit 99) * of_nat w,
                      of_nat h - (snd iv / maxKe) * of_nat h))
                  (combine (seq 0 (List.length hist)) hist))
      else None
  | None => None
  end.

(** The card fed with the calls of [onStatsUpdate], oldest first. *)
Definition feed (s : CardState) (calls : list (num * nat)) : CardState :=
  fold_left (fun s c => handleStats s (fst c) (snd c)) calls s.

End Card.

Arguments Telemetry : clear implicits.
Arguments CardState : clear implicits.

End SimulationCard.

(** ** [App]: the global controls *)

Module App.

Section Controls.

Context {num : Type} `{JSNumber num}.
Local Open Scope js_scope.

(** The state of [App]: [globalSettings], [isPlaying] and [focusedSim]. *)
Record AppState := mkApp {
  settings : GlobalSettings num;
  isPlaying : bool;
  focusedSim : option (SimulationConfig num)
}.

(** The values of the three [useState] calls. *)
Definition initialApp : AppState :=
  {| settings :=
       {| timeScale := lit 1; gravityMultiplier := lit 1; gravityAngle := lit 90;
          viscosity := dec 1 1000; rotationMultiplier := lit 1;
          bouncinessMultiplier := lit 1; showVectors := false; showTrails := true;
          precision := 4; useHeatmap := true; enableAudio := false |};
     isPlaying := true;
     focusedSim := None |}.

Definition with_settings (s : AppState) (g : GlobalSettings num) : AppState :=
  {| settings := g; isPlaying := isPlaying s; focusedSim := focusedSim s |}.

Definition togglePlay (s : AppState) : AppState :=
  {| settings := settings s; isPlaying := negb (isPlaying s); focusedSim := focusedSim s |}.

(** [setEnvironment]: the spread [{ ...p, gravityMultiplier: gravity }]. *)
Definition setEnvironment (g : num) (s : AppState) : AppState :=
  let p := settings s in
  with_settings s
    {| timeScale := timeScale p; gravityMultiplier := g; gravityAngle := gravityAngle p;
       viscosity := viscosity p; rotationMultiplier := rotationMultiplier p;
       bouncinessMultiplier := bouncinessMultiplier p; showVectors := showVectors p;
       showTrails := showTrails p; precision := precision p;
       useHeatmap := useHeatmap p; enableAudio := enableAudio p |}.

(** The three sliders. *)
Definition setTimeScale (v : num) (s : AppState) : AppState :=
  let p := settings s in
  with_settings s
    {| timeScale := v; gravityMultiplier := gravityMultiplier p;
       gravityAngle := gravityAngle p; viscosity := viscosity p;
       rotationMultiplier := rotationMultiplier p;
       bouncinessMultiplier := bouncinessMultiplier p; showVectors := showVectors p;
       showTrails := showTrails p; precision := precision p;
       useHeatmap := useHeatmap p; enableAudio := enableAudio p |}.

Definition setGravityAngle (v : num) (s : AppState) : AppState :=
  let p := settings s in
  with_settings s
    {| timeScale := timeScale p; gravityMultiplier := gravityMultiplier p;
       gravityAngle := v; viscosity := viscosity p;
       rotationMultiplier := rotationMultiplier p;
       bouncinessMultiplier := bouncinessMultiplier p; showVectors := showVectors p;
       showTrails := showTrails p; precision := precision p;
       useHeatmap := useHeatmap p; enableAudio := enableAudio p |}.

Definition setViscosity (v : num) (s : AppState) : AppState :=
  let p := settings s in
  with_settings s
    {| timeScale := timeScale p; gravityMultiplier := gravityMultiplier p;
       gravityAngle := gravityAngle p; viscosity := v;
       rotationMultiplier := rotationMultiplier p;
       bouncinessMultiplier := bouncinessMultiplier p; showVectors := showVectors p;
       showTrails := showTrails p; precision := precision p;
       useHeatmap := useHeatmap p; enableAudio := enableAudio p |}.

(** The two toggles. *)
Definition toggleHeatmap (s : AppState) : AppState :=
  let p := settings s in
  with_settings s
    {| timeScale := timeScale p; gravityMultiplier := gravityMultiplier p;
       gravityAngle := gravityAngle p; viscosity := viscosity p;
       rotationMultiplier := rotationMultiplier p;
       bouncinessMultiplier := bouncinessMultiplier p; showVectors := showVectors p;
       showTrails := showTrails p; precision := precision p;
       useHeatmap := negb (useHeatmap p); enableAudio := enableAudio p |}.

Definition toggleAudio (s : AppState) : AppState :=
  let p := settings s in
  with_settings s
    {| timeScale := timeScale p; gravityMultiplier := gravityMultiplier p;
       gravityAngle := gravityAngle p; viscosity := viscosity p;
       rotationMultiplier := rotationMultiplier p;
       bouncinessMultiplier := bouncinessMultiplier p; showVectors := showVectors p;
       showTrails := showTrails p; precision := precision p;
       useHeatmap := useHeatmap p; enableAudio := negb (enableAudio p) |}.

(** [currentSpeed = isPlaying ? globalSettings.timeScale : 0]. *)
Definition currentSpeed (s : AppState) : num :=
  if isPlaying s then timeScale (settings s) else lit 0.

(** What every card receives: [{ ...globalSettings, timeScale: currentSpeed }]. *)
Definition cardSettings (s : AppState) : GlobalSettings num :=
  let p := settings s in
  {| timeScale := currentSpeed s; gravityMultiplier := gravityMultiplier p;
     gravityAngle := gravityAngle p; viscosity := viscosity p;
     rotationMultiplier := rotationMultiplier p;
     bouncinessMultiplier := bouncinessMultiplier p; showVectors := showVectors p;
     showTrails := showTrails p; precision := precision p;
     useHeatmap := useHeatmap p; enableAudio := enableAudio p |}.

(** The controls of the header, as events. *)
Inductive Action :=
| TogglePlay
| SetEnvironment (g : num)
| SetTimeScale (v : num)
| SetGravityAngle (v : num)
| SetViscosity (v : num)
| ToggleHeatmap
| ToggleAudio.

Definition act (s : AppState) (a : Action) : AppState :=
  match a with
  | TogglePlay => togglePlay s
  | SetEnvironment g => setEnvironment g s
  | SetTimeScale v => setTimeScale v s
  | SetGravityAngle v => setGravityAngle v s
  | SetViscosity v => setViscosity v s
  | ToggleHeatmap => toggleHeatmap s
  | ToggleAudio => toggleAudio s
  end.

End Controls.

Arguments AppState : clear implicits.
Arguments Action : clear implicits.

End App.

(** ** Notions used by the statements *)

Section Notions.

Context {num : Type}.

(** The fields of a ball that only the initialisation and [tick] write. *)
Definition inert (b : Ball num)
    : num * nat * Vector2 num * num * string * list (Vector2 num) :=
  (id b, acc b, radius b, color b, trail b).

(** [st'] continues [st]: it may add recorded collisions, it keeps the inert
    fields of every ball, and it keeps every velocity if it adds none. *)
Definition continues (st st' : list (Ball num) * list num) : Prop :=
  exists h, snd st' = snd st ++ h
            /\ map inert (fst st') = map inert (fst st)
            /\ (h = [] -> map vel (fst st') = map vel (fst st)).

End Notions.

Section FrameNotions.

Context {num : Type}.

(** [tick] goes past its early returns. *)
Definition visible (cv : CanvasEl) : bool := offsetParent cv && context2d cv.

(** The calls of [onStatsUpdate] made by a run of frames, oldest first. *)
Definition emissions (fs : list (option (Frame num))) : list (num * nat) :=
  flat_map (fun f => match f with
                     | Some fr => match emitted fr with Some s => [s] | None => [] end
                     | None => []
                     end) fs.

(** A frame whose canvas is there, attached and drawable. *)
Definition shown (cv : option CanvasEl) : Prop :=
  exists c, cv = Some c /\ visible c = true.

(** A trail within its capacity. *)
Definition bounded (b : Ball num) : Prop := List.length (trail b) <= TRAIL_LENGTH.

End FrameNotions.

(** ** Notions over the reals, and concrete inputs *)

Section RealExamples.

Local Open Scope R_scope.

(** The total momentum of unit-mass particles. *)
Definition momentum (bs : list (Ball R)) : Vector2 R :=
  fold_right (fun b s => add (vel b) s) origin bs.

(** A square chamber with two particles of radius 5, restitution one half. *)
Definition labConfig : SimulationConfig R :=
  {| cfg_id := 1; name := "lab"; shapeType := square; vertexCount := 4;
     gravity := 0; friction := 0; restitution := 1 / 2; rotationSpeed := 0;
     ballCount := 2; ballSize := 5; initialSpeed := 1; nuanceDescription := "" |}.

(** The same chamber with perfectly elastic particles. *)
Definition elasticConfig : SimulationConfig R :=
  {| cfg_id := 2; name := "elastic"; shapeType := square; vertexCount := 4;
     gravity := 0; friction := 0; restitution := 1; rotationSpeed := 0;
     ballCount := 2; ballSize := 5; initialSpeed := 1; nuanceDescription := "" |}.

(** The settings [App] starts with, and the same with the simulation paused
    ([App] passes a time scale of 0 while not playing). *)
Definition labSettings : GlobalSettings R :=
  {| timeScale := 1; gravityMultiplier := 1; gravityAngle := 90; viscosity := 1 / 1000;
     rotationMultiplier := 1; bouncinessMultiplier := 1; showVectors := false;
     showTrails := true; precision := 4; useHeatmap := true; enableAudio := false |}.

Definition pausedSettings : GlobalSettings R :=
  {| timeScale := 0; gravityMultiplier := 1; gravityAngle := 90; viscosity := 1 / 1000;
     rotationMultiplier := 1; bouncinessMultiplier := 1; showVectors := false;
     showTrails := true; precision := 4; useHeatmap := true; enableAudio := false |}.

Definition labCanvas : CanvasEl :=
  {| offsetParent := true; context2d := true; clientWidth := 400; clientHeight := 400 |}.

(** The right-hand edge of the square with corners [(10, -10)], [(10, 10)],
    [(-10, 10)], [(-10, -10)], centred on the origin. *)
Definition cornerSE : Vector2 R := {| x := 10; y := -10 |}.
Definition cornerNE : Vector2 R := {| x := 10; y := 10 |}.

Definition ballAt (px py vx vy : R) : Ball R :=
  {| id := (1, 0%nat); pos := {| x := px; y := py |}; vel := {| x := vx; y := vy |};
     acc := {| x := 0; y := 0 |}; radius := 5; color := "#FFFFFF"; trail := [] |}.

(** Three units inside the right-hand edge, moving towards it at speed 2. *)
Definition nearEdge : Ball R := ballAt 7 0 2 0.

(** Two overlapping particles, centres 8 apart, closing at speed 2. *)
Definition leftBall : Ball R := ballAt 0 0 1 0.
Definition rightBall : Ball R := ballAt 8 0 (-1) 0.

(** A particle at rest on the centre. *)
Definition centreBall : Ball R := ballAt 0 0 0 0.

Definition oneBall : SimState R :=
  {| balls := [nearEdge]; rotation := 0; mousePos := None;
     collisionCount := 0; totalKe := 0; statsTick := 0; played := [] |}.

(** A particle of radius 5 on the horizontal axis, at most [bound] to the
    right of the centre, moving right at a speed of at most 2. *)
Definition drifting (bound : R) (b : Ball R) : Prop :=
  radius b = 5 /\ y (pos b) = 0 /\ 0 <= x (pos b) <= bound
  /\ y (vel b) = 0 /\ 0 <= x (vel b) <= 2.

End RealExamples.

(** The window about to close on a simulation without particles. *)
Definition windowClosing : SimState float :=
  {| balls := []; rotation := PrimFloat.zero; mousePos := None;
     collisionCount := 0; totalKe := PrimFloat.zero; statsTick := 19; played := [] |}.

Definition emptyConfig : SimulationConfig float :=
  {| cfg_id := PrimFloat.one; name := "empty"; shapeType := triangle; vertexCount := 3;
     gravity := PrimFloat.zero; friction := PrimFloat.zero; restitution := PrimFloat.one;
     rotationSpeed := PrimFloat.zero; ballCount := 0; ballSize := PrimFloat.one;
     initialSpeed := PrimFloat.one; nuanceDescription := "" |}.

Definition floatSettings : GlobalSettings float :=
  {| timeScale := PrimFloat.one; gravityMultiplier := PrimFloat.one;
     gravityAngle := PrimFloat.zero; viscosity := PrimFloat.zero;
     rotationMultiplier := PrimFloat.one; bouncinessMultiplier := PrimFloat.one;
     showVectors := false; showTrails := true; precision := 4; useHeatmap := true;
     enableAudio := false |}.

(** Binary64 counterparts of the chamber and of its particles. *)
Definition halfConfig : SimulationConfig float :=
  {| cfg_id := PrimFloat.one; name := "half"; shapeType := square; vertexCount := 4;
     gravity := PrimFloat.zero; friction := PrimFloat.zero; restitution := 0.5%float;
     rotationSpeed := PrimFloat.zero; ballCount := 2; ballSize := 5%float;
     initialSpeed := PrimFloat.one; nuanceDescription := "" |}.

Definition floatBall (px py vx vy : float) : Ball float :=
  {| id := (PrimFloat.one, 0); pos := {| x := px; y := py |};
     vel := {| x := vx; y := vy |}; acc := {| x := PrimFloat.zero; y := PrimFloat.zero |};
     radius := 5%float; color := "#FFFFFF"; trail := [] |}.

Definition elasticFloatConfig : SimulationConfig float :=
  {| cfg_id := PrimFloat.one; name := "elastic"; shapeType := square; vertexCount := 4;
     gravity := PrimFloat.zero; friction := PrimFloat.zero; restitution := PrimFloat.one;
     rotationSpeed := PrimFloat.zero; ballCount := 2; ballSize := 5%float;
     initialSpeed := PrimFloat.one; nuanceDescription := "" |}.

(** Whether a float is a finite number (neither NaN nor an infinity). *)
Definition finiteF (v : float) : bool :=
  match Prim2SF v with
  | S754_zero _ | S754_finite _ _ _ => true
  | _ => false
  end.

(** ** Further notions and inputs *)

(** The frame is drawn: the canvas is there, attached and has a context. *)
Definition drawable (cv : option CanvasEl) : bool :=
  match cv with Some c => visible c | None => false end.

(** What stays of a particle from its creation on. *)
Definition identity {num : Type} (b : Ball num)
    : num * nat * num * string * Vector2 num :=
  (id b, radius b, color b, acc b).

Section MoreNotions.

Local Open Scope R_scope.

(** No edge of the container [vs] is penetrated by the ball. *)
Definition clearOfWalls (vs : list (Vector2 R)) (b : Ball R) : Prop :=
  forall i, (i < List.length vs)%nat ->
  radius b <= edgeDist (nth i vs origin)
                       (nth ((i + 1) mod List.length vs)%nat vs origin) b.

(** No two balls overlap. *)
Definition apart (bs : list (Ball R)) : Prop :=
  forall i j a b, (i < j)%nat ->
  nth_error bs i = Some a -> nth_error bs j = Some b ->
  radius a + radius b <= mag (sub (pos b) (pos a)).

(** The chamber of a 400 by 400 canvas before any rotation: the square of
    circumradius 176 around the origin. *)
Definition squareChamber : list (Vector2 R) :=
  [ {| x := 176; y := 0 |}; {| x := 0; y := 176 |};
    {| x := - (176); y := 0 |}; {| x := 0; y := - (176) |} ].

(** Two particles 50 apart on the horizontal axis, both moving right. *)
Definition twoBalls : SimState R :=
  {| balls := [ballAt 0 0 1 0; ballAt 50 0 1 0]; rotation := 0; mousePos := None;
     collisionCount := 0; totalKe := 0; statsTick := 0; played := [] |}.

(** The lab chamber turning by a fiftieth of a radian per unit of time. *)
Definition spinConfig : SimulationConfig R :=
  {| cfg_id := 3; name := "spin"; shapeType := square; vertexCount := 4;
     gravity := 0; friction := 0; restitution := 1 / 2; rotationSpeed := 1 / 50;
     ballCount := 2; ballSize := 5; initialSpeed := 1; nuanceDescription := "" |}.

(** The two particles on the last frame of a telemetry window that has
    summed an energy of 7 and counted 3 collisions. *)
Definition lateWindow : SimState R :=
  {| balls := [ballAt 0 0 1 0; ballAt 50 0 1 0]; rotation := 0; mousePos := None;
     collisionCount := 3; totalKe := 7; statsTick := 19; played := [] |}.

End MoreNotions.

(** * Properties *)

(** ** What a physics step never writes

    These facts hold for every number instance: they only follow the control
    flow of the stepper. *)

Section Structure.

Context {num : Type} `{JSNumber num} `{JSMath num}.
Variable config : SimulationConfig num.
Variable globalSettings : GlobalSettings num.

Lemma update_length (A : Type) (i : nat) (v : A) (l : list A) :
  List.length (update i v l) = List.length l.
Proof.
  revert i; induction l as [|a l IH]; intros [|i]; simpl; auto.
Qed.

Lemma map_update (A B : Type) (f : A -> B) (i : nat) (v : A) (l : list A) :
  map f (update i v l) = update i (f v) (map f l).
Proof.
  revert i; induction l as [|a l IH]; intros [|i]; simpl; auto.
  now rewrite IH.
Qed.

Lemma update_same (A : Type) (i : nat) (a : A) (l : list A) :
  nth_error l i = Some a -> update i a l = l.
Proof.
  revert i; induction l as [|b l IH]; intros [|i]; simpl; intros E; try discriminate.
  - now inversion E.
  - now rewrite IH.
Qed.

Lemma nth_error_update_other (A : Type) (i j : nat) (v : A) (l : list A) :
  i <> j -> nth_error (update i v l) j = nth_error l j.
Proof.
  revert i j; induction l as [|b l IH]; intros [|i] [|j] N; simpl; auto;
    congruence.
Qed.

Lemma forEach_fst (f : Ball num -> Ball num * list num) (bs : list (Ball num)) :
  fst (forEach f bs) = map (fun b => fst (f b)) bs.
Proof.
  induction bs as [|b r IH]; simpl; auto.
  destruct (f b) as [b' h]; destruct (forEach f r) as [r' hs]; simpl in *.
  now rewrite IH.
Qed.

Lemma forEach_snd (f : Ball num -> Ball num * list num) (bs : list (Ball num)) :
  snd (forEach f bs) = flat_map (fun b => snd (f b)) bs.
Proof.
  induction bs as [|b r IH]; simpl; auto.
  destruct (f b) as [b' h]; destruct (forEach f r) as [r' hs]; simpl in *.
  now rewrite IH.
Qed.

(** *** One edge *)

Lemma collideEdge_inert (p1 p2 : Vector2 num) (b : Ball num) :
  inert (fst (collideEdge config globalSettings p1 p2 b)) = inert b.
Proof.
  unfold collideEdge.
  destruct (nlt (edgeDist p1 p2 b) (radius b)); simpl; auto.
  match goal with |- context [if ?c then _ else _] => destruct c end; reflexivity.
Qed.

(** An edge that records no collision leaves the velocity alone (it may
    still push the ball out). *)
Lemma collideEdge_quiet (p1 p2 : Vector2 num) (b : Ball num) :
  snd (collideEdge config globalSettings p1 p2 b) = [] ->
  vel (fst (collideEdge config globalSettings p1 p2 b)) = vel b.
Proof.
  unfold collideEdge.
  destruct (nlt (edgeDist p1 p2 b) (radius b)); simpl; auto.
  match goal with |- context [if ?c then _ else _] => destruct c end;
    simpl; intros E; [discriminate | reflexivity].
Qed.

(** *** All edges *)

Lemma edgeStep_inert (vs : list (Vector2 num)) (st : Ball num * list num) (i : nat) :
  inert (fst (edgeStep config globalSettings vs st i)) = inert (fst st).
Proof.
  unfold edgeStep.
  destruct (collideEdge _ _ _ _ (fst st)) as [b h] eqn:E; simpl.
  change b with (fst (b, h)); rewrite <- E. apply collideEdge_inert.
Qed.

Lemma edgeStep_quiet (vs : list (Vector2 num)) (st : Ball num * list num) (i : nat) :
  exists h, snd (edgeStep config globalSettings vs st i) = snd st ++ h
            /\ (h = [] -> vel (fst (edgeStep config globalSettings vs st i)) = vel (fst st)).
Proof.
  unfold edgeStep.
  destruct (collideEdge _ _ _ _ (fst st)) as [b h] eqn:E; simpl.
  exists h; split; auto.
  intros Z. change b with (fst (b, h)); rewrite <- E.
  apply collideEdge_quiet. now rewrite E.
Qed.

Lemma boundCollisions_inert (vs : list (Vector2 num)) (b : Ball num) :
  inert (fst (boundCollisions config globalSettings vs b)) = inert b.
Proof.
  unfold boundCollisions.
  change (inert b) with (inert (fst (b, @nil num))).
  generalize (seq 0 (List.length vs)) as idx, (b, @nil num) as st.
  induction idx as [|i idx IH]; intros st; simpl; auto.
  now rewrite IH, edgeStep_inert.
Qed.

Lemma edges_quiet (vs : list (Vector2 num)) (idx : list nat) :
  forall st : Ball num * list num,
  exists extra,
    snd (fold_left (edgeStep config globalSettings vs) idx st) = snd st ++ extra
    /\ (extra = [] ->
        vel (fst (fold_left (edgeStep config globalSettings vs) idx st)) = vel (fst st)).
Proof.
  induction idx as [|i idx IH]; intros st; simpl.
  - exists []. now rewrite app_nil_r.
  - destruct (edgeStep_quiet vs st i) as [h [S1 Q1]].
    destruct (IH (edgeStep config globalSettings vs st i)) as [extra [S Q]].
    exists (h ++ extra). split.
    + now rewrite S, S1, app_assoc.
    + intros Z. apply app_eq_nil in Z as [Zh Ze].
      now rewrite (Q Ze), (Q1 Zh).
Qed.

Lemma boundCollisions_quiet (vs : list (Vector2 num)) (b : Ball num) :
  snd (boundCollisions config globalSettings vs b) = [] ->
  vel (fst (boundCollisions config globalSettings vs b)) = vel b.
Proof.
  unfold boundCollisions. intros Q.
  destruct (edges_quiet vs (seq 0 (List.length vs)) (b, [])) as [extra [S V]].
  apply V. simpl in S. congruence.
Qed.

(** *** One pair *)

Lemma collidePair_inert (a b : Ball num) :
  let '(a', b', _) := collidePair config globalSettings a b in
  inert a' = inert a /\ inert b' = inert b.
Proof.
  unfold collidePair.
  destruct (nlt _ (nadd (radius a) (radius b))); simpl; auto.
  match goal with |- context [if ?c then _ else _] => destruct c end; simpl; auto.
Qed.

(** A pair that records no collision keeps both velocities (it may still
    separate the two balls). *)
Lemma collidePair_quiet (a b : Ball num) :
  let '(a', b', h) := collidePair config globalSettings a b in
  h = [] -> vel a' = vel a /\ vel b' = vel b.
Proof.
  unfold collidePair.
  destruct (nlt _ (nadd (radius a) (radius b))); simpl; auto.
  match goal with |- context [if ?c then _ else _] => destruct c end; simpl; auto.
  discriminate.
Qed.

(** Whatever the arithmetic, a resolved pair receives one impulse: it is added
    to the velocity of the first ball and subtracted from that of the
    second. *)
Lemma collidePair_impulse (a b : Ball num) :
  let '(a', b', h) := collidePair config globalSettings a b in
  (h = [] /\ vel a' = vel a /\ vel b' = vel b)
  \/ (exists impulse, vel a' = add (vel a) impulse /\ vel b' = sub (vel b) impulse).
Proof.
  unfold collidePair.
  destruct (nlt _ (nadd (radius a) (radius b))); [|now left].
  match goal with |- context [if ?c then _ else _] => destruct c end; [|now left].
  right. eexists. split; reflexivity.
Qed.

(** *** The pair loop *)

Lemma continues_refl (st : list (Ball num) * list num) : continues st st.
Proof. exists []. now rewrite app_nil_r. Qed.

Lemma continues_trans (s1 s2 s3 : list (Ball num) * list num) :
  continues s1 s2 -> continues s2 s3 -> continues s1 s3.
Proof.
  intros [h1 [S1 [I1 V1]]] [h2 [S2 [I2 V2]]].
  exists (h1 ++ h2). repeat split.
  - now rewrite S2, S1, app_assoc.
  - congruence.
  - intros Z. apply app_eq_nil in Z as [Z1 Z2].
    now rewrite (V2 Z2), (V1 Z1).
Qed.

Lemma fold_continues (F : list (Ball num) * list num -> nat -> list (Ball num) * list num) :
  (forall st i, continues st (F st i)) ->
  forall idx st, continues st (fold_left F idx st).
Proof.
  intros HF. induction idx as [|i idx IH]; intros st; simpl.
  - apply continues_refl.
  - eapply continues_trans; [apply HF | apply IH].
Qed.

Lemma map_update2 (B : Type) (f : Ball num -> B) (i j : nat) (a b a' b' : Ball num)
    (bs : list (Ball num)) :
  nth_error bs i = Some a -> nth_error bs j = Some b ->
  f a' = f a -> f b' = f b ->
  map f (update j b' (update i a' bs)) = map f bs.
Proof.
  intros Hi Hj Fa Fb.
  rewrite !map_update, Fa, Fb.
  assert (E : update i (f a) (map f bs) = map f bs)
    by (apply update_same; now apply map_nth_error).
  rewrite E. apply update_same. now apply map_nth_error.
Qed.

Lemma resolveAt_continues (i : nat) (st : list (Ball num) * list num) (j : nat) :
  continues st (resolveAt config globalSettings i st j).
Proof.
  unfold resolveAt.
  destruct (nth_error (fst st) i) as [a|] eqn:Hi; [|apply continues_refl].
  destruct (nth_error (fst st) j) as [b|] eqn:Hj; [|apply continues_refl].
  pose proof (collidePair_inert a b) as I.
  pose proof (collidePair_quiet a b) as Q.
  destruct (collidePair config globalSettings a b) as [[a' b'] h].
  destruct I as [Ia Ib].
  exists h; simpl; repeat split.
  - now apply map_update2 with (a := a) (b := b).
  - intros Z. destruct (Q Z) as [Va Vb].
    now apply map_update2 with (a := a) (b := b).
Qed.

Lemma pairCollisions_continues (bs : list (Ball num)) :
  continues (bs, []) (pairCollisions config globalSettings bs).
Proof.
  unfold pairCollisions. apply fold_continues.
  intros st i. unfold pairRow. apply fold_continues.
  intros st' j. apply resolveAt_continues.
Qed.

(** *** The whole step *)

Lemma applyForces_inert (dt : num) (m : option (Vector2 num)) (b : Ball num) :
  inert (applyForces config globalSettings dt m b) = inert b.
Proof. reflexivity. Qed.

Lemma runPhysicsStep_frame (dt r : num) (vs : list (Vector2 num)) (st : SimState num) :
  let st' := runPhysicsStep config globalSettings dt r vs st in
  rotation st' = rotation st /\ mousePos st' = mousePos st
  /\ totalKe st' = totalKe st /\ statsTick st' = statsTick st
  /\ collisionCount st <= collisionCount st'
  /\ map inert (balls st') = map inert (balls st)
  /\ (collisionCount st' = collisionCount st ->
      map vel (balls st')
      = map (fun b => vel (applyForces config globalSettings dt (mousePos st) b))
            (balls st)).
Proof.
  unfold runPhysicsStep.
  set (f := fun ball => boundCollisions config globalSettings vs
              (applyForces config globalSettings dt (mousePos st) ball)).
  pose proof (forEach_fst f (balls st)) as F1.
  pose proof (forEach_snd f (balls st)) as F2.
  destruct (forEach f (balls st)) as [bs1 h1]; simpl in F1, F2.
  destruct (pairCollisions_continues bs1) as [h [S [I V]]].
  destruct (pairCollisions config globalSettings bs1) as [bs2 h2]; simpl in *.
  subst h2. repeat split; try lia.
  - rewrite I, F1, map_map. apply map_ext. intros b. unfold f.
    now rewrite boundCollisions_inert.
  - intros C. rewrite length_app in C.
    assert (Z1 : h1 = []) by (destruct h1; [reflexivity | simpl in C; lia]).
    assert (Z2 : h = []) by (destruct h; [reflexivity | simpl in C; lia]).
    rewrite (V Z2), F1, map_map.
    assert (Q : forall b, In b (balls st) -> snd (f b) = []).
    { rewrite Z1 in F2. clear - F2. induction (balls st) as [|b0 l IH]; simpl in *.
      - tauto.
      - symmetry in F2. apply app_eq_nil in F2 as [E1 E2].
        intros b [<-|Hin]; auto. }
    apply map_ext_in. intros b Hb. unfold f.
    apply boundCollisions_quiet. apply (Q b Hb).
Qed.

(** *** The sub-step loop *)

Lemma applyForces_no_pointer (dt : num) (b : Ball num) :
  vel (applyForces config globalSettings dt None b)
  = kick config globalSettings dt (vel b).
Proof. reflexivity. Qed.

Lemma subSteps_frame (n : nat) (dt r : num) :
  forall st : SimState num,
  let st' := subSteps config globalSettings n dt r st in
  mousePos st' = mousePos st
  /\ totalKe st' = totalKe st /\ statsTick st' = statsTick st
  /\ collisionCount st <= collisionCount st'
  /\ map inert (balls st') = map inert (balls st)
  /\ (mousePos st = None -> collisionCount st' = collisionCount st ->
      map vel (balls st')
      = map (Nat.iter n (kick config globalSettings dt)) (map vel (balls st))).
Proof.
  induction n as [|n IH]; intros st; cbn [subSteps].
  - simpl. repeat split; auto. intros _ _. now rewrite map_id.
  - match goal with
    | |- context [subSteps _ _ n dt r (runPhysicsStep _ _ dt r ?vs ?s0)] =>
        destruct (IH (runPhysicsStep config globalSettings dt r vs s0))
          as [M [K [T [C [I V]]]]];
        destruct (runPhysicsStep_frame dt r vs s0) as [_ [M1 [K1 [T1 [C1 [I1 V1]]]]]]
    end.
    cbn [mousePos totalKe statsTick collisionCount balls] in M1, K1, T1, C1, I1, V1.
    cbv zeta. repeat split; try congruence; try lia.
    intros N E.
    rewrite V by (try congruence; lia).
    rewrite V1 by lia.
    rewrite !map_map. apply map_ext. intros b.
    rewrite N, applyForces_no_pointer.
    now rewrite <- Nat.iter_succ_r.
Qed.

End Structure.
(** ** One frame *)

Section Frames.

Context {num : Type} `{JSNumber num} `{JSMath num}.
Variable config : SimulationConfig num.
Variable globalSettings : GlobalSettings num.

Lemma tick_hidden (cv : option CanvasEl) (st : SimState num) :
  match cv with Some c => visible c = false | None => True end ->
  tick config globalSettings cv st = (st, None).
Proof.
  destruct cv as [c|]; trivial. unfold visible, tick.
  destruct (offsetParent c), (context2d c); simpl; trivial; discriminate.
Qed.

Lemma tick_visible (cv : CanvasEl) (st : SimState num) :
  visible cv = true ->
  let st1 := advance config globalSettings (shapeRadiusOf cv) st in
  tick config globalSettings (Some cv) st
  = (fst (telemetry (frameKe (balls st1)) (drawn globalSettings (centerOf cv) st1)),
     Some {| arcs := map (drawArc (centerOf cv)) (balls st1);
             emitted := snd (telemetry (frameKe (balls st1)) (drawn globalSettings (centerOf cv) st1)) |}).
Proof.
  intros V st1. unfold visible in V. apply andb_prop in V as [A B].
  unfold tick. rewrite A, B. cbn [negb].
  fold st1.
  destruct (telemetry _ _) as [st3 stats]. reflexivity.
Qed.

Lemma advance_frame (r : num) (st : SimState num) :
  let st' := advance config globalSettings r st in
  mousePos st' = mousePos st
  /\ totalKe st' = totalKe st /\ statsTick st' = statsTick st
  /\ collisionCount st <= collisionCount st'
  /\ map inert (balls st') = map inert (balls st).
Proof.
  unfold advance. destruct (nlt _ _).
  - destruct (subSteps_frame config globalSettings (precision globalSettings)
                (ndiv (timeScale globalSettings) (of_nat (precision globalSettings))) r st)
      as [M [K [T [C [I _]]]]]. auto.
  - repeat split; auto.
Qed.

Lemma advance_paused (r : num) (st : SimState num) :
  nlt (lit 0) (timeScale globalSettings) = false ->
  advance config globalSettings r st = st.
Proof. unfold advance. now intros ->. Qed.

Lemma telemetry_balls (ke : num) (st : SimState num) :
  balls (fst (telemetry ke st)) = balls st.
Proof. unfold telemetry. destruct (20 <=? _); reflexivity. Qed.

Lemma telemetry_count (ke : num) (st : SimState num) :
  statsTick st < 20 ->
  if statsTick st =? 19 then
    telemetry ke st
    = ({| balls := balls st; rotation := rotation st; mousePos := mousePos st;
          collisionCount := 0; totalKe := lit 0; statsTick := 0; played := played st |},
       Some (ndiv (nadd (totalKe st) ke)
                  (nmul (lit 20) (of_nat (List.length (balls st)))),
             collisionCount st))
  else
    telemetry ke st
    = ({| balls := balls st; rotation := rotation st; mousePos := mousePos st;
          collisionCount := collisionCount st; totalKe := nadd (totalKe st) ke;
          statsTick := S (statsTick st); played := played st |},
       None).
Proof.
  intros L. unfold telemetry.
  destruct (statsTick st =? 19) eqn:E.
  - apply Nat.eqb_eq in E. rewrite E. reflexivity.
  - apply Nat.eqb_neq in E.
    replace (20 <=? S (statsTick st)) with false; trivial.
    symmetry. apply Nat.leb_gt. lia.
Qed.

End Frames.

(** ** The stepper over the reals *)

Section RealVectors.

Local Open Scope R_scope.

Lemma Rltb_true (a b : R) : Rltb a b = true <-> a < b.
Proof. unfold Rltb. destruct (Rlt_dec a b); split; auto; discriminate. Qed.

Lemma Rltb_false (a b : R) : Rltb a b = false <-> b <= a.
Proof.
  unfold Rltb. destruct (Rlt_dec a b); split; auto; try discriminate; lra.
Qed.

Lemma vec_eq (a b : Vector2 R) : x a = x b -> y a = y b -> a = b.
Proof. destruct a, b; simpl; congruence. Qed.

Lemma mag_nonneg (v : Vector2 R) : 0 <= mag v.
Proof. apply sqrt_pos. Qed.

Lemma mag_sqr (v : Vector2 R) : mag v * mag v = x v * x v + y v * y v.
Proof. unfold mag; simpl. apply sqrt_sqrt. nra. Qed.

Lemma mag_zero (v : Vector2 R) : mag v = 0 -> x v = 0 /\ y v = 0.
Proof. intros E. pose proof (mag_sqr v) as S. rewrite E in S. nra. Qed.

Lemma normalize_unit (v : Vector2 R) :
  mag v <> 0 -> dot (normalize v) (normalize v) = 1.
Proof.
  intros N. pose proof (mag_sqr v) as S.
  unfold dot, normalize; cbn -[mag].
  replace 1 with ((x v * x v + y v * y v) / (mag v * mag v))
    by (rewrite <- S; field; trivial).
  field. trivial.
Qed.

Lemma normalize_null (v : Vector2 R) :
  mag v = 0 -> x (normalize v) = 0 /\ y (normalize v) = 0.
Proof.
  intros E. destruct (mag_zero v E) as [X Y].
  unfold normalize; cbn -[mag]. rewrite X, Y. unfold Rdiv. lra.
Qed.

Lemma normalize_cases (v : Vector2 R) :
  dot (normalize v) (normalize v) = 1
  \/ (x (normalize v) = 0 /\ y (normalize v) = 0).
Proof.
  destruct (Req_dec (mag v) 0) as [E|N].
  - right. now apply normalize_null.
  - left. now apply normalize_unit.
Qed.

(** The normal of an edge is a unit vector, or null when the edge is
    degenerate. *)
Lemma edgeNormal_cases (p1 p2 : Vector2 R) :
  dot (edgeNormal p1 p2) (edgeNormal p1 p2) = 1
  \/ (x (edgeNormal p1 p2) = 0 /\ y (edgeNormal p1 p2) = 0).
Proof.
  pose proof (normalize_cases {| x := - y (sub p2 p1); y := x (sub p2 p1) |}) as C.
  unfold edgeNormal.
  set (n := normalize _) in *.
  destruct C as [U|[X Y]].
  - left. destruct (nlt _ _); trivial.
    unfold dot in *. cbn [x y nmul nadd lit RNum] in *. lra.
  - right. destruct (nlt _ _); cbn [x y nmul lit RNum]; rewrite ?X, ?Y; split; lra.
Qed.

Lemma edgeNormal_side (p1 p2 : Vector2 R) : dot (edgeNormal p1 p2) p1 <= 0.
Proof.
  unfold edgeNormal.
  set (n := normalize _).
  change (nlt (lit 0) (dot n p1)) with (Rltb 0 (dot n p1)).
  destruct (Rltb 0 (dot n p1)) eqn:E.
  - apply Rltb_true in E. unfold dot in *. cbn [x y nmul nadd lit RNum] in *. lra.
  - now apply Rltb_false in E.
Qed.

Lemma edgeNormal_perp (p1 p2 : Vector2 R) :
  dot (edgeNormal p1 p2) (sub p2 p1) = 0.
Proof.
  unfold edgeNormal.
  set (e := sub p2 p1).
  destruct (nlt _ _); unfold dot, normalize; simpl; unfold Rdiv; ring.
Qed.

Lemma edge_nondegenerate (p1 p2 : Vector2 R) :
  p1 <> p2 -> mag {| x := - y (sub p2 p1); y := x (sub p2 p1) |} <> 0.
Proof.
  intros N E. apply mag_zero in E as [X Y]. simpl in X, Y.
  apply N. apply vec_eq; lra.
Qed.

Lemma edgeNormal_unit (p1 p2 : Vector2 R) :
  p1 <> p2 -> dot (edgeNormal p1 p2) (edgeNormal p1 p2) = 1.
Proof.
  intros N. apply edge_nondegenerate in N. apply normalize_unit in N.
  unfold edgeNormal. set (n := normalize _) in *.
  destruct (nlt _ _); trivial.
  unfold dot in *. cbn [x y nmul nadd lit RNum] in *. lra.
Qed.

End RealVectors.

(** ** Collisions over the reals *)

Section RealStepper.

Local Open Scope R_scope.
Variable config : SimulationConfig R.
Variable globalSettings : GlobalSettings R.

Local Abbreviation e := (effectiveRestitution config globalSettings).

Ltac real_ops :=
  cbn [x y pos vel radius set_pos set_vel add sub mult fst snd
       lit nadd nsub nmul ndiv nneg RNum] in *.

Lemma if_Rltb_true (A : Type) (a b : R) (u v : A) :
  a < b -> (if nlt a b then u else v) = u.
Proof. intros L. apply Rltb_true in L. cbn [nlt RNum]. now rewrite L. Qed.

Lemma if_Rltb_false (A : Type) (a b : R) (u v : A) :
  b <= a -> (if nlt a b then u else v) = v.
Proof. intros L. apply Rltb_false in L. cbn [nlt RNum]. now rewrite L. Qed.

Lemma collideEdge_far (p1 p2 : Vector2 R) (ball : Ball R) :
  radius ball <= edgeDist p1 p2 ball ->
  collideEdge config globalSettings p1 p2 ball = (ball, []).
Proof. intros F. unfold collideEdge. now rewrite if_Rltb_false. Qed.

Lemma collideEdge_near (p1 p2 : Vector2 R) (ball : Ball R) :
  edgeDist p1 p2 ball < radius ball ->
  pos (fst (collideEdge config globalSettings p1 p2 ball))
  = add (pos ball) (mult (edgeNormal p1 p2) (radius ball - edgeDist p1 p2 ball)).
Proof.
  intros N. unfold collideEdge. rewrite if_Rltb_true by trivial.
  match goal with |- context [if ?c then _ else _] => destruct c end; reflexivity.
Qed.

(** C2 (as amended): the normal the boundary pass uses for the edge from [p1]
    to [p2] points inward.  Its dot product with the edge vertex [p1] is never
    positive, so a ball on the container centre has a signed distance that is
    never negative.  For a non-degenerate edge the normal is a unit vector
    perpendicular to the edge.  The ball is treated as penetrating exactly when
    its signed distance along that normal is below its radius: it is then moved
    along the normal by [radius - distance], and otherwise left untouched. *)
Theorem boundary_normal_points_inward (p1 p2 : Vector2 R) (ball : Ball R) :
  let n := edgeNormal p1 p2 in
  dot n p1 <= 0
  /\ (pos ball = origin -> 0 <= edgeDist p1 p2 ball)
  /\ (p1 <> p2 -> dot n n = 1 /\ dot n (sub p2 p1) = 0)
  /\ (edgeDist p1 p2 ball < radius ball ->
      pos (fst (collideEdge config globalSettings p1 p2 ball))
      = add (pos ball) (mult n (radius ball - edgeDist p1 p2 ball)))
  /\ (radius ball <= edgeDist p1 p2 ball ->
      collideEdge config globalSettings p1 p2 ball = (ball, [])).
Proof.
  intros n. pose proof (edgeNormal_side p1 p2) as S. fold n in S.
  repeat split.
  - exact S.
  - intros O. unfold edgeDist. fold n. rewrite O.
    unfold dot, origin in *. real_ops. lra.
  - now apply edgeNormal_unit.
  - apply edgeNormal_perp.
  - apply collideEdge_near.
  - apply collideEdge_far.
Qed.

(** C4: a particle of radius 5 at signed distance 3 from an edge, with the
    velocity component -2 along the edge normal, under effective restitution
    one half: resolving that edge moves it by exactly 2 along the normal, its
    normal velocity component becomes +1, and one collision of force 2 is
    recorded. *)
Theorem boundary_bounce_scenario (p1 p2 : Vector2 R) (ball : Ball R) :
  radius ball = 5 ->
  edgeDist p1 p2 ball = 3 ->
  dot (vel ball) (edgeNormal p1 p2) = -2 ->
  e = 1 / 2 ->
  let n := edgeNormal p1 p2 in
  let r := collideEdge config globalSettings p1 p2 ball in
  pos (fst r) = add (pos ball) (mult n 2)
  /\ dot (vel (fst r)) n = 1
  /\ snd r = [2].
Proof.
  intros R0 D V E n r.
  assert (U : dot n n = 1).
  { destruct (edgeNormal_cases p1 p2) as [U|[X Y]]; trivial.
    exfalso. unfold dot in V. real_ops. rewrite X, Y in V. lra. }
  subst r. unfold collideEdge. fold n.
  rewrite if_Rltb_true by lra.
  cbn [vel set_pos]. fold n in V. rewrite if_Rltb_true by (cbn [lit RNum]; lra).
  rewrite E, V, D, R0. cbn [fst snd].
  repeat split.
  - apply vec_eq; real_ops; lra.
  - unfold dot in *. real_ops. nra.
  - cbn [Math_abs RNum]. f_equal. rewrite Rabs_left; lra.
Qed.

(** A kick [k] along a unit normal changes the normal component by [k]. *)
Lemma normal_component_kick (nx ny vx vy k : R) :
  nx * nx + ny * ny = 1 ->
  (vx + nx * k) * nx + (vy + ny * k) * ny = (vx * nx + vy * ny) + k.
Proof.
  intros U.
  replace ((vx + nx * k) * nx + (vy + ny * k) * ny)
    with ((vx * nx + vy * ny) + k * (nx * nx + ny * ny)) by ring.
  rewrite U. ring.
Qed.

(** The sum of the two velocities, whatever the branch taken. *)
Lemma collidePair_momentum (a b : Ball R) :
  let '(a', b', _) := collidePair config globalSettings a b in
  add (vel a') (vel b') = add (vel a) (vel b).
Proof.
  unfold collidePair.
  destruct (nlt _ (nadd (radius a) (radius b))); trivial.
  match goal with |- context [if ?c then _ else _] => destruct c end; trivial.
  apply vec_eq; real_ops; lra.
Qed.

(** C5: resolving a pair never changes the sum of the two velocities.  With
    effective restitution 1, for an overlapping and approaching pair, the two
    particles exchange their velocity components along the normal. *)
Theorem pair_collision_conserves_momentum (a b : Ball R) :
  let n := normalize (sub (pos b) (pos a)) in
  let s := dot (sub (vel b) (vel a)) n in
  let '(a', b', _) := collidePair config globalSettings a b in
  add (vel a') (vel b') = add (vel a) (vel b)
  /\ (e = 1 -> mag (sub (pos b) (pos a)) < radius a + radius b -> s < 0 ->
      dot (vel a') n = dot (vel b) n /\ dot (vel b') n = dot (vel a) n).
Proof.
  intros n s. unfold collidePair. fold n.
  destruct (nlt (mag (sub (pos b) (pos a))) (nadd (radius a) (radius b))) eqn:O.
  - cbn [vel set_pos]. fold s.
    destruct (nlt s (lit 0)) eqn:A.
    + split.
      * apply vec_eq; real_ops; lra.
      * intros E _ _. rewrite E.
        apply Rltb_true in A. cbn [lit RNum] in A.
        assert (U : dot n n = 1).
        { destruct (normalize_cases (sub (pos b) (pos a))) as [U|[X Y]]; trivial.
          exfalso. subst s n. unfold dot in A. real_ops. rewrite X, Y in A. lra. }
        assert (S : s = dot (vel b) n - dot (vel a) n).
        { subst s. unfold dot. real_ops. ring. }
        unfold dot in U, S |- *. real_ops.
        replace (s * (1 + 1) / 2) with s by field.
        split.
        -- rewrite normal_component_kick by exact U. lra.
        -- replace (x (vel b) - x n * s) with (x (vel b) + x n * - s) by ring.
           replace (y (vel b) - y n * s) with (y (vel b) + y n * - s) by ring.
           rewrite normal_component_kick by exact U. lra.
    + split; trivial. intros _ _ L. apply Rltb_false in A. cbn [lit RNum] in A. lra.
  - split; trivial. intros _ L _. apply Rltb_false in O. real_ops. lra.
Qed.

(** C9: for an overlapping pair with negative separating velocity [s] along
    the normal, the separating velocity after the impulse is [- e * s] along
    the same normal, [e] the effective restitution.  Its magnitude does not
    exceed that of [s] when [0 <= e <= 1], and it is zero when [e = 0].  One
    collision of force [|s|] is recorded. *)
Theorem pair_collision_restitution (a b : Ball R) :
  let n := normalize (sub (pos b) (pos a)) in
  let s := dot (sub (vel b) (vel a)) n in
  mag (sub (pos b) (pos a)) < radius a + radius b ->
  s < 0 ->
  let '(a', b', h) := collidePair config globalSettings a b in
  let s' := dot (sub (vel b') (vel a')) n in
  s' = - e * s
  /\ (0 <= e <= 1 -> Rabs s' <= Rabs s)
  /\ (e = 0 -> s' = 0)
  /\ h = [Rabs s].
Proof.
  intros n s O A.
  assert (U : dot n n = 1).
  { destruct (normalize_cases (sub (pos b) (pos a))) as [U|[X Y]]; trivial.
    exfalso. subst s n. unfold dot in A. real_ops. rewrite X, Y in A. lra. }
  unfold collidePair. fold n.
  rewrite if_Rltb_true by exact O.
  cbn [vel set_pos]. fold s. rewrite if_Rltb_true by exact A.
  cbv zeta.
  match goal with |- ?l = _ /\ _ => assert (S' : l = - e * s) end.
  { assert (S : s = dot (vel b) n - dot (vel a) n).
    { subst s. unfold dot. real_ops. ring. }
    unfold dot in U, S |- *. real_ops.
    set (k := s * (1 + e) / 2).
    replace ((x (vel b) - x n * k - (x (vel a) + x n * k)) * x n
             + (y (vel b) - y n * k - (y (vel a) + y n * k)) * y n)
      with ((x (vel b) * x n + y (vel b) * y n) - (x (vel a) * x n + y (vel a) * y n)
            - 2 * k * (x n * x n + y n * y n)) by ring.
    rewrite U, <- S. unfold k. field. }
  rewrite S'. repeat split.
  - intros B. rewrite (Rabs_pos_eq (- e * s)) by nra.
    rewrite (Rabs_left s) by lra. nra.
  - intros Z. rewrite Z. lra.
Qed.

End RealStepper.

(** ** Total momentum over the pair pass *)

Section Momentum.

Local Open Scope R_scope.
Variable config : SimulationConfig R.
Variable globalSettings : GlobalSettings R.

Lemma momentum_update (i : nat) (a a' : Ball R) (bs : list (Ball R)) :
  nth_error bs i = Some a ->
  momentum (update i a' bs) = add (sub (momentum bs) (vel a)) (vel a').
Proof.
  revert i; induction bs as [|b bs IH]; intros [|i] E; try discriminate.
  - injection E as ->. cbn [update momentum fold_right].
    apply vec_eq; cbn [x y add sub nadd nsub RNum]; ring.
  - cbn [update momentum fold_right]. fold (momentum (update i a' bs)).
    rewrite (IH i E). fold (momentum bs).
    apply vec_eq; cbn [x y add sub nadd nsub RNum]; ring.
Qed.

Lemma resolveAt_momentum (i j : nat) (st : list (Ball R) * list R) :
  i <> j ->
  momentum (fst (resolveAt config globalSettings i st j)) = momentum (fst st).
Proof.
  intros N. unfold resolveAt.
  destruct (nth_error (fst st) i) as [a|] eqn:Hi; trivial.
  destruct (nth_error (fst st) j) as [b|] eqn:Hj; trivial.
  pose proof (collidePair_momentum config globalSettings a b) as M.
  destruct (collidePair config globalSettings a b) as [[a' b'] h]. cbn [fst].
  rewrite (@momentum_update j b b') by (rewrite nth_error_update_other; trivial).
  rewrite (@momentum_update i a a') by trivial.
  apply (f_equal (@x R)) in M as Mx. apply (f_equal (@y R)) in M as My.
  cbn [x y add nadd RNum] in Mx, My.
  apply vec_eq; cbn [x y add sub nadd nsub RNum]; lra.
Qed.

Lemma fold_left_invariant (A S T : Type) (f : S -> A -> S) (g : S -> T) (l : list A) :
  (forall s a, In a l -> g (f s a) = g s) ->
  forall s, g (fold_left f l s) = g s.
Proof.
  induction l as [|a l IH]; intros K s; cbn [fold_left]; trivial.
  rewrite IH.
  - apply K. now left.
  - intros s' a' Ha. apply K. now right.
Qed.

(** The pair pass as a whole conserves the total momentum. *)
Lemma pairCollisions_momentum (bs : list (Ball R)) :
  momentum (fst (pairCollisions config globalSettings bs)) = momentum bs.
Proof.
  unfold pairCollisions.
  rewrite (fold_left_invariant _ (fun st => momentum (fst st))); trivial.
  intros st i _. unfold pairRow.
  apply (fold_left_invariant _ (fun st => momentum (fst st))).
  intros st' j Hj. apply resolveAt_momentum.
  apply in_seq in Hj. lia.
Qed.

End Momentum.

(** ** Drag over the reals *)

Section RealDrag.

Local Open Scope R_scope.
Variable config : SimulationConfig R.
Variable globalSettings : GlobalSettings R.

Local Abbreviation c := (viscosity globalSettings + friction config).

Lemma of_nat_INR (n : nat) : of_nat (num := R) n = INR n.
Proof. unfold of_nat. cbn [lit RNum]. now rewrite INR_IZR_INZ. Qed.

Lemma kick_decay (dt : R) (v : Vector2 R) :
  gravity config = 0 -> 0 <= c < 1 ->
  kick config globalSettings dt v = mult v (Rpower (1 - c) dt).
Proof.
  intros G C. unfold kick, gravityX, gravityY. rewrite G.
  cbn [Math_pow RMath lit nsub nadd RNum]. unfold Rpow_js.
  destruct (Rlt_dec 0 (1 - c)) as [_|N]; [|lra].
  apply vec_eq; cbn [x y mult nadd nmul RNum]; ring.
Qed.

Lemma iter_kick_decay (n : nat) (dt : R) (v : Vector2 R) :
  gravity config = 0 -> 0 <= c < 1 ->
  Nat.iter n (kick config globalSettings dt) v = mult v (Rpower (1 - c) (INR n * dt)).
Proof.
  intros G C. induction n as [|n IH].
  - cbn [Nat.iter nat_rect INR]. rewrite Rmult_0_l, Rpower_O by lra.
    apply vec_eq; cbn [x y mult nmul RNum]; ring.
  - rewrite Nat.iter_succ, IH, kick_decay by trivial.
    rewrite S_INR. replace ((INR n + 1) * dt) with (INR n * dt + dt) by ring.
    rewrite Rpower_plus.
    apply vec_eq; cbn [x y mult nmul RNum]; ring.
Qed.

(** The velocities after [k] quiet sub-steps of size [dt]. *)
Lemma subSteps_velocities (k : nat) (dt r : R) (st : SimState R) :
  0 <= c < 1 ->
  gravity config = 0 ->
  mousePos st = None ->
  let st' := subSteps config globalSettings k dt r st in
  collisionCount st' = collisionCount st ->
  map vel (balls st')
  = map (fun b => mult (vel b) (Rpower (1 - c) (INR k * dt))) (balls st).
Proof.
  intros C G M st' Q.
  destruct (subSteps_frame config globalSettings k dt r st) as [_ [_ [_ [_ [_ V]]]]].
  fold st' in V. rewrite (V M Q), map_map.
  apply map_ext. intros b. now apply iter_kick_decay.
Qed.

(** C3: with [viscosity + friction = c], [0 <= c < 1], no gravity, no pointer
    and no collision recorded, [k >= 1] sub-steps of size [T / k] leave every
    particle with the velocity [v0 * (1 - c)^T], whatever [k] is. *)
Theorem drag_decay_substep_invariant (k : nat) (T r : R) (st : SimState R) :
  0 <= c < 1 ->
  gravity config = 0 ->
  mousePos st = None ->
  (0 < k)%nat ->
  let st' := subSteps config globalSettings k (ndiv T (of_nat k)) r st in
  collisionCount st' = collisionCount st ->
  map vel (balls st') = map (fun b => mult (vel b) (Rpower (1 - c) T)) (balls st).
Proof.
  intros C G M K st' Q. subst st'.
  rewrite subSteps_velocities by trivial.
  apply map_ext. intros b. f_equal. f_equal.
  rewrite of_nat_INR. cbn [ndiv RNum]. field.
  apply not_0_INR. lia.
Qed.

(** The same seen from one frame: the decay over a frame does not depend on
    [precision]. *)
Corollary drag_decay_per_frame (r : R) (st : SimState R) :
  0 <= c < 1 ->
  gravity config = 0 ->
  mousePos st = None ->
  0 < timeScale globalSettings ->
  (0 < precision globalSettings)%nat ->
  collisionCount (advance config globalSettings r st) = collisionCount st ->
  map vel (balls (advance config globalSettings r st))
  = map (fun b => mult (vel b) (Rpower (1 - c) (timeScale globalSettings))) (balls st).
Proof.
  intros C G M T K. unfold advance.
  replace (nlt (lit 0) (timeScale globalSettings)) with true
    by (symmetry; apply Rltb_true; exact T).
  intros Q. rewrite subSteps_velocities by trivial.
  apply map_ext. intros b. f_equal. f_equal.
  rewrite of_nat_INR. cbn [ndiv RNum]. field.
  apply not_0_INR. lia.
Qed.

End RealDrag.

(** ** The telemetry window *)

Section Telemetry.

Context {num : Type} `{JSNumber num} `{JSMath num}.
Variable config : SimulationConfig num.
Variable globalSettings : GlobalSettings num.

Lemma frames_cons (cv : option CanvasEl) (cvs : list (option CanvasEl)) (st : SimState num) :
  frames config globalSettings (cv :: cvs) st
  = (fst (frames config globalSettings cvs (fst (tick config globalSettings cv st))),
     snd (tick config globalSettings cv st)
     :: snd (frames config globalSettings cvs (fst (tick config globalSettings cv st)))).
Proof.
  cbn [frames]. destruct (tick _ _ cv st) as [st1 f].
  cbn [fst snd]. now destruct (frames _ _ cvs st1).
Qed.

(** One frame seen from the window: the frame counter and what is emitted. *)
Lemma tick_window (cv : CanvasEl) (st : SimState num) :
  visible cv = true -> statsTick st < 20 ->
  let st1 := advance config globalSettings (shapeRadiusOf cv) st in
  let total := nadd (totalKe st) (frameKe (balls st1)) in
  let st' := fst (tick config globalSettings (Some cv) st) in
  let out := option_map (@emitted num) (snd (tick config globalSettings (Some cv) st)) in
  if statsTick st =? 19 then
    out = Some (Some (ndiv total (nmul (lit 20) (of_nat (List.length (balls st1)))),
                      collisionCount st1))
    /\ totalKe st' = lit 0 /\ collisionCount st' = 0 /\ statsTick st' = 0
  else
    out = Some None
    /\ totalKe st' = total /\ collisionCount st' = collisionCount st1
    /\ statsTick st' = S (statsTick st).
Proof.
  intros V L st1 total st' out. subst st' out.
  rewrite (tick_visible config globalSettings cv st V). fold st1. cbn [fst snd option_map emitted].
  destruct (advance_frame config globalSettings (shapeRadiusOf cv) st) as [_ [K [T _]]].
  fold st1 in K, T.
  pose proof (telemetry_count (frameKe (balls st1))
                (drawn globalSettings (centerOf cv) st1)) as C.
  cbn [statsTick drawn] in C. rewrite T in C. specialize (C L).
  destruct (statsTick st =? 19); rewrite C; cbn [fst snd totalKe collisionCount statsTick balls drawn];
    rewrite ?length_map, ?K; repeat split; congruence.
Qed.

(** C8: a drawn frame emits exactly when it is the twentieth since the last
    emission.  The emitted average is the running total, including this
    frame's kinetic energy, divided by 20 times the particle count, and it
    comes with the collision counter; the total, the collision counter and the
    frame counter are then zero.  Any other frame emits nothing and
    accumulates.  Hence a run of [n] drawn frames started with [t] frames in
    the window emits [(t + n) / 20] times. *)
Theorem telemetry_one_snapshot_per_window :
  (forall (cv : CanvasEl) (st : SimState num),
      visible cv = true -> statsTick st < 20 ->
      let st1 := advance config globalSettings (shapeRadiusOf cv) st in
      let total := nadd (totalKe st) (frameKe (balls st1)) in
      let st' := fst (tick config globalSettings (Some cv) st) in
      let out := option_map (@emitted num) (snd (tick config globalSettings (Some cv) st)) in
      if statsTick st =? 19 then
        out = Some (Some (ndiv total (nmul (lit 20) (of_nat (List.length (balls st1)))),
                          collisionCount st1))
        /\ totalKe st' = lit 0 /\ collisionCount st' = 0 /\ statsTick st' = 0
      else
        out = Some None
        /\ totalKe st' = total /\ collisionCount st' = collisionCount st1
        /\ statsTick st' = S (statsTick st))
  /\ (forall (cvs : list (option CanvasEl)) (st : SimState num),
      Forall shown cvs -> statsTick st < 20 ->
      let st' := fst (frames config globalSettings cvs st) in
      let fs := snd (frames config globalSettings cvs st) in
      List.length (emissions fs) = (statsTick st + List.length cvs) / 20
      /\ statsTick st' = (statsTick st + List.length cvs) mod 20).
Proof.
  split; [exact tick_window|].
  induction cvs as [|cv cvs IH]; intros st A L.
  - cbn [frames fst snd emissions flat_map List.length].
    rewrite Nat.add_0_r, Nat.div_small, Nat.mod_small by lia. auto.
  - inversion A as [|? ? [c [-> V]] A']; subst.
    rewrite frames_cons. cbn [fst snd emissions flat_map].
    pose proof (tick_window c st V L) as W. cbv zeta in W.
    set (t1 := tick config globalSettings (Some c) st) in *.
    destruct (statsTick st =? 19) eqn:E.
    + apply Nat.eqb_eq in E. destruct W as [O [_ [_ S0]]].
      destruct (snd t1) as [fr|]; [|discriminate]. cbn in O. injection O as O.
      rewrite O. cbn [List.length app].
      assert (L1 : statsTick (fst t1) < 20) by lia.
      destruct (IH (fst t1) A' L1) as [N M]. cbn zeta in N, M.
      fold (emissions (snd (frames config globalSettings cvs (fst t1)))).
      rewrite N, M, S0, E.
      replace (19 + S (List.length cvs)) with (List.length cvs + 1 * 20) by lia.
      rewrite Nat.div_add, Nat.Div0.mod_add by lia. rewrite !Nat.add_0_l.
      split; [now rewrite Nat.add_1_r | reflexivity].
    + apply Nat.eqb_neq in E. destruct W as [O [_ [_ S1]]].
      destruct (snd t1) as [fr|]; [|discriminate]. cbn in O. injection O as O.
      rewrite O. cbn [List.length app].
      assert (L1 : statsTick (fst t1) < 20) by lia.
      destruct (IH (fst t1) A' L1) as [N M]. cbn zeta in N, M.
      fold (emissions (snd (frames config globalSettings cvs (fst t1)))).
      rewrite N, M, S1.
      replace (S (statsTick st) + List.length cvs)
        with (statsTick st + S (List.length cvs)) by lia. auto.
Qed.

(** The frame counter stays below 20 from the first frame on. *)
Lemma tick_statsTick (cv : option CanvasEl) (st : SimState num) :
  statsTick st < 20 -> statsTick (fst (tick config globalSettings cv st)) < 20.
Proof.
  intros L. destruct cv as [c|]; [destruct (visible c) eqn:V|].
  - pose proof (tick_window c st V L) as W. cbv zeta in W.
    destruct (statsTick st =? 19) eqn:E.
    + destruct W as [_ [_ [_ ->]]]. lia.
    + apply Nat.eqb_neq in E. destruct W as [_ [_ [_ ->]]]. lia.
  - now rewrite tick_hidden.
  - now rewrite tick_hidden.
Qed.

Lemma frames_statsTick (cvs : list (option CanvasEl)) :
  forall st : SimState num,
  statsTick st < 20 -> statsTick (fst (frames config globalSettings cvs st)) < 20.
Proof.
  induction cvs as [|cv cvs IH]; intros st L.
  - exact L.
  - rewrite frames_cons. cbn [fst]. apply IH. now apply tick_statsTick.
Qed.

End Telemetry.

(** ** Trails and paused frames *)

Section Trails.

Context {num : Type} `{JSNumber num} `{JSMath num}.
Variable config : SimulationConfig num.
Variable globalSettings : GlobalSettings num.

Lemma map_eq_Forall2 (A B : Type) (f : A -> B) (l l' : list A) :
  map f l = map f l' -> Forall2 (fun a b => f a = f b) l l'.
Proof.
  revert l'; induction l as [|a l IH]; intros [|b l'] E; try discriminate; constructor.
  - now inversion E.
  - apply IH. now inversion E.
Qed.

Lemma Forall2_map_r (A B : Type) (R : A -> B -> Prop) (g : B -> B) (l : list A) (l' : list B) :
  Forall2 (fun a b => R a (g b)) l l' -> Forall2 R l (map g l').
Proof. induction 1; constructor; auto. Qed.

(** The three cases of lines 233-236. *)
Lemma updateTrail_cases (p : Vector2 num) (t : list (Vector2 num)) :
  (showTrails globalSettings = true -> nlt (lit 0) (timeScale globalSettings) = true ->
   updateTrail globalSettings p t
   = (if List.length t <? TRAIL_LENGTH then t else tl t) ++ [p])
  /\ (showTrails globalSettings = true -> nlt (lit 0) (timeScale globalSettings) = false ->
      updateTrail globalSettings p t = t)
  /\ (showTrails globalSettings = false -> updateTrail globalSettings p t = []).
Proof.
  unfold updateTrail. repeat split.
  - intros -> ->. cbn [andb]. rewrite length_app. cbn [List.length].
    destruct (List.length t <? TRAIL_LENGTH) eqn:E.
    + apply Nat.ltb_lt in E.
      replace (TRAIL_LENGTH <? List.length t + 1) with false; trivial.
      symmetry. apply Nat.ltb_ge. lia.
    + apply Nat.ltb_ge in E.
      replace (TRAIL_LENGTH <? List.length t + 1) with true
        by (symmetry; apply Nat.ltb_lt; lia).
      destruct t; [cbn in E; unfold TRAIL_LENGTH in E; lia | reflexivity].
  - intros -> ->. reflexivity.
  - intros ->. reflexivity.
Qed.

Lemma updateTrail_bounded (p : Vector2 num) (t : list (Vector2 num)) :
  List.length t <= TRAIL_LENGTH ->
  List.length (updateTrail globalSettings p t) <= TRAIL_LENGTH.
Proof.
  intros B. destruct (updateTrail_cases p t) as [C1 [C2 C3]].
  destruct (showTrails globalSettings).
  - destruct (nlt (lit 0) (timeScale globalSettings)).
    + rewrite C1 by trivial. rewrite length_app. cbn [List.length].
      destruct (List.length t <? TRAIL_LENGTH) eqn:E.
      * apply Nat.ltb_lt in E. lia.
      * unfold TRAIL_LENGTH in *. destruct t; cbn [tl List.length] in *; lia.
    + now rewrite C2.
  - rewrite C3 by trivial. cbn. unfold TRAIL_LENGTH. lia.
Qed.

Lemma tick_balls (cv : CanvasEl) (st : SimState num) :
  visible cv = true ->
  balls (fst (tick config globalSettings (Some cv) st))
  = map (drawBall globalSettings (centerOf cv))
        (balls (advance config globalSettings (shapeRadiusOf cv) st)).
Proof.
  intros V. rewrite (tick_visible config globalSettings cv st V).
  cbn [fst]. now rewrite telemetry_balls.
Qed.

Lemma tick_bounded (cv : option CanvasEl) (st : SimState num) :
  Forall bounded (balls st) ->
  Forall bounded (balls (fst (tick config globalSettings cv st))).
Proof.
  intros B.
  destruct cv as [c|]; [destruct (visible c) eqn:V|].
  - rewrite tick_balls by trivial.
    destruct (advance_frame config globalSettings (shapeRadiusOf c) st) as [_ [_ [_ [_ I]]]].
    apply map_eq_Forall2 in I.
    set (bs1 := balls (advance config globalSettings (shapeRadiusOf c) st)) in *.
    clearbody bs1. revert B. induction I as [|b1 b l1 l I1 I2 IH]; intros B; cbn [map].
    + constructor.
    + inversion B; subst. constructor; auto.
      unfold bounded, drawBall. cbn [trail set_trail].
      apply updateTrail_bounded.
      replace (trail b1) with (trail b) by (unfold inert in I1; congruence). assumption.
  - now rewrite tick_hidden.
  - now rewrite tick_hidden.
Qed.

Lemma frames_bounded (cvs : list (option CanvasEl)) :
  forall st : SimState num,
  Forall bounded (balls st) ->
  Forall bounded (balls (fst (frames config globalSettings cvs st))).
Proof.
  induction cvs as [|cv cvs IH]; intros st B.
  - exact B.
  - rewrite frames_cons. cbn [fst]. apply IH. now apply tick_bounded.
Qed.

(** A visible frame, ball by ball: [b] before the frame, [b'] after it. *)
Lemma tick_trails (cv : CanvasEl) (st : SimState num) :
  visible cv = true ->
  Forall2 (fun b b' =>
             trail b' = updateTrail globalSettings (screenPos (centerOf cv) b') (trail b))
          (balls st) (balls (fst (tick config globalSettings (Some cv) st))).
Proof.
  intros V. rewrite tick_balls by trivial.
  destruct (advance_frame config globalSettings (shapeRadiusOf cv) st) as [_ [_ [_ [_ I]]]].
  apply map_eq_Forall2 in I. apply Forall2_map_r.
  apply Forall2_flip. eapply Forall2_impl; [|exact I].
  intros b1 b E. unfold drawBall, screenPos. cbn [trail set_trail pos].
  unfold inert in E. congruence.
Qed.

(** The initialisation starts every trail empty, hence within capacity. *)
Lemma initEffect_bounded (rnd : nat -> num) (st : SimState num) :
  Forall bounded (balls (initEffect config rnd st)).
Proof.
  unfold initEffect. cbn [balls]. apply Forall_forall.
  intros b Hb. apply in_map_iff in Hb as [i [<- _]].
  unfold bounded, TRAIL_LENGTH. cbn. lia.
Qed.

(** *** A frame at a time scale that is not positive *)

Lemma tick_paused_balls (cv : option CanvasEl) (st : SimState num) :
  nlt (lit 0) (timeScale globalSettings) = false ->
  let st' := fst (tick config globalSettings cv st) in
  map pos (balls st') = map pos (balls st) /\ map vel (balls st') = map vel (balls st).
Proof.
  intros Z st'. subst st'.
  destruct cv as [c|]; [destruct (visible c) eqn:V|].
  - rewrite tick_balls by trivial.
    rewrite advance_paused by trivial.
    rewrite !map_map. split; apply map_ext; reflexivity.
  - rewrite tick_hidden; auto.
  - rewrite tick_hidden; auto.
Qed.

Lemma frames_paused_balls (cvs : list (option CanvasEl)) :
  nlt (lit 0) (timeScale globalSettings) = false ->
  forall st : SimState num,
  let st' := fst (frames config globalSettings cvs st) in
  map pos (balls st') = map pos (balls st) /\ map vel (balls st') = map vel (balls st).
Proof.
  intros Z. induction cvs as [|cv cvs IH]; intros st; cbv zeta.
  - auto.
  - rewrite frames_cons. cbn [fst].
    destruct (IH (fst (tick config globalSettings cv st))) as [P V].
    destruct (tick_paused_balls cv st Z) as [P1 V1].
    split; congruence.
Qed.

End Trails.

(** ** Frames over the reals *)

Section RealFrames.

Local Open Scope R_scope.
Variable config : SimulationConfig R.
Variable globalSettings : GlobalSettings R.

(** C6: at time scale 0 no sub-step is run.  Any number of frames, drawn or
    not, leaves the position and the velocity of every particle unchanged,
    while each drawn frame still draws every particle where it is and still
    feeds the telemetry window (the frame's kinetic energy is accumulated, the
    frame counter advances, and the twentieth frame emits). *)
Theorem paused_frames_freeze_particles :
  timeScale globalSettings = 0 ->
  (forall (cvs : list (option CanvasEl)) (st : SimState R),
      let st' := fst (frames config globalSettings cvs st) in
      map pos (balls st') = map pos (balls st) /\ map vel (balls st') = map vel (balls st))
  /\ (forall (cv : CanvasEl) (st : SimState R),
      visible cv = true -> (statsTick st < 20)%nat ->
      let t := tick config globalSettings (Some cv) st in
      let total := totalKe st + frameKe (balls st) in
      option_map (@arcs R) (snd t) = Some (map (drawArc (centerOf cv)) (balls st))
      /\ (statsTick st <> 19%nat ->
          totalKe (fst t) = total /\ statsTick (fst t) = S (statsTick st))
      /\ (statsTick st = 19%nat ->
          option_map (@emitted R) (snd t)
          = Some (Some (total / (20 * INR (List.length (balls st))), collisionCount st)))).
Proof.
  intros Z.
  assert (Z' : nlt (lit 0) (timeScale globalSettings) = false)
    by (rewrite Z; now apply Rltb_false, Rle_refl).
  split.
  - intros cvs st. now apply frames_paused_balls.
  - intros cv st V L t total.
    pose proof (tick_window config globalSettings cv st V L) as W. cbv zeta in W.
    rewrite advance_paused in W by exact Z'.
    fold t in W. subst total.
    split; [|split].
    + subst t. rewrite (tick_visible config globalSettings cv st V). cbn [snd option_map arcs].
      now rewrite advance_paused by exact Z'.
    + intros N. apply Nat.eqb_neq in N. rewrite N in W.
      destruct W as [_ [T [_ S]]]. auto.
    + intros E. apply Nat.eqb_eq in E. rewrite E in W. destruct W as [O _].
      rewrite O. now rewrite of_nat_INR.
Qed.

(** C7 (as amended): trails that hold at most 12 entries still do after any
    number of frames.  In a drawn frame, with trails enabled and a positive
    time scale, the screen position of the particle after the frame's
    sub-steps is appended once as the newest entry, and the oldest entry is
    dropped first if the trail was full.  With trails enabled and the time
    scale not positive the trail is left as it is.  With trails disabled it
    is emptied. *)
Theorem trail_bounded_fifo :
  (forall (cvs : list (option CanvasEl)) (st : SimState R),
      Forall bounded (balls st) ->
      Forall bounded (balls (fst (frames config globalSettings cvs st))))
  /\ (forall (cv : CanvasEl) (st : SimState R),
      visible cv = true ->
      Forall2 (fun b b' =>
                 let p := screenPos (centerOf cv) b' in
                 (showTrails globalSettings = true -> 0 < timeScale globalSettings ->
                  trail b' = (if (List.length (trail b) <? TRAIL_LENGTH)%nat
                              then trail b else tl (trail b)) ++ [p])
                 /\ (showTrails globalSettings = true -> timeScale globalSettings <= 0 ->
                     trail b' = trail b)
                 /\ (showTrails globalSettings = false -> trail b' = []))
              (balls st) (balls (fst (tick config globalSettings (Some cv) st)))).
Proof.
  split.
  - intros cvs st. apply frames_bounded.
  - intros cv st V.
    eapply Forall2_impl; [|exact (tick_trails config globalSettings cv st V)].
    intros b b' E. cbv beta in E. cbv zeta.
    destruct (updateTrail_cases globalSettings (screenPos (centerOf cv) b') (trail b))
      as [C1 [C2 C3]].
    rewrite E. repeat split.
    + intros S T. apply C1; trivial. now apply Rltb_true.
    + intros S T. apply C2; trivial. now apply Rltb_false.
    + exact C3.
Qed.

(** *** The initialisation effect *)

Lemma mag_polar (a d : R) : mag {| x := cos a * d; y := sin a * d |} = Rabs d.
Proof.
  unfold mag. cbn [x y nmul nadd Math_sqrt RNum].
  replace (cos a * d * (cos a * d) + sin a * d * (sin a * d))
    with ((Rsqr (sin a) + Rsqr (cos a)) * Rsqr d) by (unfold Rsqr; ring).
  rewrite sin2_cos2, Rmult_1_l. apply sqrt_Rsqr_abs.
Qed.

Lemma Rsame_true (a b : R) : Rsame a b = true <-> a = b.
Proof. unfold Rsame. destruct (Req_dec_T a b); split; auto; discriminate. Qed.

Lemma depsSame_true (p : SimulationConfig R) :
  depsSame config p = true
  <-> cfg_id p = cfg_id config /\ ballCount p = ballCount config
      /\ initialSpeed p = initialSpeed config /\ ballSize p = ballSize config.
Proof.
  unfold depsSame. cbn [same RNum].
  rewrite !andb_true_iff, !Rsame_true, Nat.eqb_eq. tauto.
Qed.

Lemma spawn_shape (rnd : nat -> R) (i : nat) :
  (forall k, 0 <= rnd k < 1) ->
  0 <= initialSpeed config ->
  let b := spawn config rnd i in
  trail b = [] /\ acc b = origin /\ radius b = ballSize config
  /\ mag (pos b) < 20
  /\ exists f, 8 / 10 <= f < 12 / 10 /\ mag (vel b) = initialSpeed config * f.
Proof.
  intros U S b. subst b. unfold spawn. cbn [trail acc radius pos vel].
  repeat split.
  - cbn [Math_cos Math_sin RMath]. change (@nmul R RNum) with Rmult.
    rewrite mag_polar. cbn [lit RNum].
    pose proof (U (4 * i + 1)%nat). rewrite Rabs_pos_eq; lra.
  - exists (8 / 10 + rnd (4 * i + 2)%nat * (4 / 10)).
    pose proof (U (4 * i + 2)%nat). split; [lra|].
    cbn [Math_cos Math_sin RMath]. change (@nmul R RNum) with Rmult.
    rewrite mag_polar. unfold dec. cbn [lit nadd ndiv RNum].
    apply Rabs_pos_eq. nra.
Qed.

(** C10: a render on mount, or one that changes the simulation id, the
    particle count, the initial speed or the particle radius, runs the
    initialisation: the rotation is 0 and the particle array is replaced by
    [ballCount] new particles, each with an empty trail, zero acceleration, the
    configured radius, a position less than 20 units from the centre and a
    speed of [initialSpeed] times a factor in [0.8, 1.2). *)
Theorem initialisation_resets_state (prev : option (SimulationConfig R))
    (rnd : nat -> R) (st : SimState R) :
  (forall k, 0 <= rnd k < 1) ->
  0 <= initialSpeed config ->
  match prev with
  | None => True
  | Some p => cfg_id p <> cfg_id config \/ ballCount p <> ballCount config
              \/ initialSpeed p <> initialSpeed config \/ ballSize p <> ballSize config
  end ->
  let st' := onRender config prev rnd st in
  rotation st' = 0
  /\ List.length (balls st') = ballCount config
  /\ Forall (fun b => trail b = [] /\ acc b = origin /\ radius b = ballSize config
                      /\ mag (pos b) < 20
                      /\ exists f, 8 / 10 <= f < 12 / 10
                                   /\ mag (vel b) = initialSpeed config * f)
            (balls st').
Proof.
  intros U S D st'.
  assert (E : st' = initEffect config rnd st).
  { subst st'. destruct prev as [p|]; cbn [onRender]; trivial.
    destruct (depsSame config p) eqn:Q; trivial.
    apply depsSame_true in Q. tauto. }
  rewrite E. unfold initEffect. cbn [rotation balls].
  repeat split.
  - now rewrite length_map, length_seq.
  - apply Forall_forall. intros b Hb. apply in_map_iff in Hb as [i [<- _]].
    now apply spawn_shape.
Qed.

Lemma render_same_deps (p : SimulationConfig R) (rnd : nat -> R) (st : SimState R) :
  cfg_id p = cfg_id config -> ballCount p = ballCount config ->
  initialSpeed p = initialSpeed config -> ballSize p = ballSize config ->
  onRender config (Some p) rnd st = st.
Proof.
  intros A B C D. cbn [onRender].
  replace (depsSame config p) with true; trivial.
  symmetry. now apply depsSame_true.
Qed.

End RealFrames.

(** ** The telemetry window under IEEE-754 *)

Section FloatTelemetry.

Variables (cosF sinF : float -> float) (powF : float -> float -> float).
Variable config : SimulationConfig float.
Variable globalSettings : GlobalSettings float.

Lemma div_zero_not_finite (t : float) :
  finiteF (PrimFloat.div t PrimFloat.zero) = false.
Proof.
  unfold finiteF. rewrite FloatAxioms.div_spec.
  destruct (Prim2SF t) as [s|s| |s m e]; reflexivity.
Qed.

Lemma twenty_times_zero :
  nmul (lit 20) (of_nat (num := float) 0) = PrimFloat.zero.
Proof. reflexivity. Qed.

Lemma subSteps_empty (n : nat) (dt r : float) (st : SimState float) :
  balls st = [] ->
  let st' := subSteps (H0 := FloatMath cosF sinF powF) config globalSettings n dt r st in
  balls st' = [] /\ totalKe st' = totalKe st /\ statsTick st' = statsTick st.
Proof.
  intros E st'.
  destruct (subSteps_frame (H0 := FloatMath cosF sinF powF) config globalSettings n dt r st)
    as [_ [K [T [_ [I _]]]]].
  fold st' in K, T, I. rewrite E in I. cbn [map] in I.
  apply map_eq_nil in I. auto.
Qed.

(** C1 (as amended): when the window closes on a simulation without particles,
    nothing is special-cased.  The average handed to [onStatsUpdate] is the
    IEEE-754 quotient [(totalKe + 0) / 0]: it is never a finite number, so never
    [0], and it is NaN when the running total is zero.  No fault is raised and
    the accumulators are reset as on any other emission.  This holds whatever
    floats [Math.cos], [Math.sin] and [Math.pow] return. *)
Theorem zero_particles_average_not_finite (cv : CanvasEl) (st : SimState float) :
  visible cv = true ->
  balls st = [] ->
  statsTick st = 19 ->
  let t := tick (H0 := FloatMath cosF sinF powF) config globalSettings (Some cv) st in
  exists v n,
    option_map (@emitted float) (snd t) = Some (Some (v, n))
    /\ v = PrimFloat.div (PrimFloat.add (totalKe st) PrimFloat.zero) PrimFloat.zero
    /\ finiteF v = false
    /\ (totalKe st = PrimFloat.zero -> PrimFloat.is_nan v = true)
    /\ totalKe (fst t) = PrimFloat.zero /\ collisionCount (fst t) = 0 /\ statsTick (fst t) = 0.
Proof.
  intros V E S t.
  assert (L : statsTick st < 20) by lia.
  pose proof (tick_window (H0 := FloatMath cosF sinF powF) config globalSettings cv st V L) as W.
  cbv zeta in W. fold t in W. rewrite S in W. cbn [Nat.eqb] in W.
  destruct W as [O R].
  assert (B : balls (advance (H0 := FloatMath cosF sinF powF) config globalSettings
                             (shapeRadiusOf cv) st) = []).
  { unfold advance. destruct (nlt _ _); trivial. now apply subSteps_empty. }
  rewrite B in O. cbn [List.length frameKe fold_left] in O.
  rewrite twenty_times_zero in O.
  eexists; eexists. split; [exact O|].
  split; [reflexivity|]. split; [apply div_zero_not_finite|].
  split; [|exact R].
  intros Z. rewrite Z. reflexivity.
Qed.

(** Paused under IEEE-754: positions and velocities stay the very same
    floats, frame after frame. *)
Lemma paused_frames_bit_identical (cvs : list (option CanvasEl)) (st : SimState float) :
  timeScale globalSettings = PrimFloat.zero ->
  let st' := fst (frames (H0 := FloatMath cosF sinF powF) config globalSettings cvs st) in
  map pos (balls st') = map pos (balls st) /\ map vel (balls st') = map vel (balls st).
Proof.
  intros Z. apply frames_paused_balls. now rewrite Z.
Qed.

End FloatTelemetry.

Lemma zero_particles_snapshot_is_nan :
  snd (telemetry (frameKe (balls windowClosing)) windowClosing) = Some (PrimFloat.nan, 0)
  /\ PrimFloat.eqb PrimFloat.nan PrimFloat.zero = false.
Proof. split; reflexivity. Qed.

(** *** The collision scenarios evaluated in binary64 *)

(** The scenario of the boundary bounce in binary64, on the right-hand edge of
    an axis-aligned square: every value involved is representable, and the
    particle ends exactly 2 further in with the normal velocity +1. *)
Lemma boundary_bounce_binary64 :
  collideEdge halfConfig floatSettings
    {| x := 10%float; y := (-10)%float |} {| x := 10%float; y := 10%float |}
    (floatBall 7 0 2 0)
  = (floatBall 5 0 (-1) 0, [2%float]).
Proof. vm_compute. reflexivity. Qed.

(** Two overlapping particles closing head-on, elastic, in binary64: they are
    moved one unit apart each and their velocities are exchanged. *)
Lemma head_on_exchange_binary64 :
  collidePair elasticFloatConfig floatSettings (floatBall 0 0 1 0) (floatBall 8 0 (-1) 0)
  = (floatBall (-1) 0 (-1) 0, floatBall 9 0 1 0, [2%float]).
Proof. vm_compute. reflexivity. Qed.

(** ** The concrete inputs evaluated *)

Section RealEvaluation.

Local Open Scope R_scope.

Lemma mag_value (v : Vector2 R) (m : R) :
  0 <= m -> m * m = x v * x v + y v * y v -> mag v = m.
Proof.
  intros P E. unfold mag. cbn [Math_sqrt nadd nmul RNum].
  apply sqrt_lem_1; trivial. rewrite <- E. nra.
Qed.

Lemma normalize_value (v : Vector2 R) (m : R) :
  0 < m -> m * m = x v * x v + y v * y v ->
  normalize v = {| x := x v / m; y := y v / m |}.
Proof.
  intros P E. unfold normalize. rewrite (mag_value v (m := m)) by (trivial; lra).
  reflexivity.
Qed.

Lemma east_edge_normal : edgeNormal cornerSE cornerNE = {| x := -1; y := 0 |}.
Proof.
  unfold edgeNormal.
  rewrite (normalize_value _ (m := 20)); cbn [x y sub cornerSE cornerNE nsub nneg RNum];
    try lra.
  rewrite if_Rltb_false.
  - apply vec_eq; cbn [x y ndiv RNum]; lra.
  - unfold dot. cbn [x y cornerSE lit nadd nmul ndiv RNum]. lra.
Qed.

Lemma nearEdge_dist : edgeDist cornerSE cornerNE nearEdge = 3.
Proof.
  unfold edgeDist. rewrite east_edge_normal.
  unfold dot. cbn. lra.
Qed.

Lemma pair_normal :
  normalize (sub (pos rightBall) (pos leftBall)) = {| x := 1; y := 0 |}.
Proof.
  rewrite (normalize_value _ (m := 8)); cbn; try lra.
  apply vec_eq; cbn; lra.
Qed.

Lemma pair_distance : mag (sub (pos rightBall) (pos leftBall)) = 8.
Proof. apply mag_value; cbn; lra. Qed.

End RealEvaluation.

(** ** A particle drifting in the square chamber *)

Section Chamber.

Local Open Scope R_scope.

(** A ball stays clear of the edge from [p1] to [p2] of a polygon wound
    anticlockwise around the origin when, with [e = p2 - p1] and
    [c = p1 x p2 > 0], the quantity [q = c + e x pos] is at least
    [radius * |e|]; the condition is stated on squares, without roots. *)
Lemma edge_clear (config : SimulationConfig R) (gs : GlobalSettings R)
    (p1 p2 : Vector2 R) (ball : Ball R) :
  let ex := x p2 - x p1 in
  let ey := y p2 - y p1 in
  let c := x p1 * y p2 - y p1 * x p2 in
  let q := c - ey * x (pos ball) + ex * y (pos ball) in
  0 < c -> 0 <= radius ball -> 0 <= q ->
  radius ball * radius ball * (ex * ex + ey * ey) <= q * q ->
  collideEdge config gs p1 p2 ball = (ball, []).
Proof.
  intros ex ey c q C Rp Q S.
  apply collideEdge_far.
  unfold edgeDist, edgeNormal, normalize.
  set (perp := {| x := nneg (y (sub p2 p1)); y := x (sub p2 p1) |}).
  pose proof (mag_sqr perp) as M2. pose proof (mag_nonneg perp) as M0.
  set (m := mag perp) in *. clearbody m.
  cbn [perp x y sub nsub nneg ndiv RNum] in *. fold ex ey in M2 |- *.
  assert (Mp : 0 < m).
  { destruct (Req_dec m 0) as [Z|N]; [|lra].
    exfalso. rewrite Z in M2.
    assert (ex = 0 /\ ey = 0) as [X Y] by nra.
    subst c ex ey. nra. }
  rewrite if_Rltb_false.
  - unfold dot. cbn [x y sub nsub nadd nmul RNum].
    replace ((x (pos ball) - x p1) * (- ey / m) + (y (pos ball) - y p1) * (ex / m))
      with (q / m) by (subst q c ex ey; field; lra).
    apply Rmult_le_reg_r with m; trivial.
    replace (q / m * m) with q by (field; lra).
    apply Rsqr_incr_0_var; trivial.
    unfold Rsqr.
    replace (radius ball * m * (radius ball * m))
      with (radius ball * radius ball * (m * m)) by ring.
    rewrite M2. nra.
  - unfold dot. cbn [x y lit nadd nmul RNum].
    replace (- ey / m * x p1 + ex / m * y p1) with (- c / m) by (subst c ex ey; field; lra).
    apply Rlt_le. apply Rdiv_neg_pos; lra.
Qed.

Lemma square_vertices (r rot : R) :
  rot = 0 ->
  generatePolygon 4 r origin rot
  = [ {| x := r; y := 0 |}; {| x := 0; y := r |};
      {| x := - r; y := 0 |}; {| x := 0; y := - r |} ].
Proof.
  intros ->. unfold generatePolygon, of_nat. cbn [seq map Z.of_nat Pos.of_succ_nat Pos.succ].
  cbn [origin x y lit nadd nmul ndiv Math_cos Math_sin Math_PI RNum RMath].
  replace (0 + 2 * PI * 0 / 4) with 0 by field.
  replace (0 + 2 * PI * 1 / 4) with (PI / 2) by field.
  replace (0 + 2 * PI * 2 / 4) with PI by field.
  replace (0 + 2 * PI * 3 / 4) with (3 * (PI / 2)) by field.
  rewrite cos_0, sin_0, cos_PI2, sin_PI2, cos_PI, sin_PI, cos_3PI2, sin_3PI2.
  repeat (f_equal; try (apply vec_eq; cbn [x y]; ring)).
Qed.

Lemma chamber_clear (r : R) (b : Ball R) (bound : R) :
  r = 176 -> bound <= 100 -> drifting bound b ->
  boundCollisions labConfig labSettings
    [ {| x := r; y := 0 |}; {| x := 0; y := r |};
      {| x := - r; y := 0 |}; {| x := 0; y := - r |} ] b
  = (b, []).
Proof.
  intros -> Bd [Rb [Py [Px _]]].
  unfold boundCollisions. cbn [List.length seq fold_left].
  unfold edgeStep.
  cbn [List.length nth Nat.add Nat.modulo Nat.divmod Nat.sub fst snd].
  rewrite (@edge_clear labConfig labSettings {| x := 176; y := 0 |} {| x := 0; y := 176 |} b);
    cbn [x y fst snd app]; rewrite ?Rb, ?Py; try nra.
  rewrite (@edge_clear labConfig labSettings {| x := 0; y := 176 |} {| x := - (176); y := 0 |} b);
    cbn [x y fst snd app]; rewrite ?Rb, ?Py; try nra.
  rewrite (@edge_clear labConfig labSettings {| x := - (176); y := 0 |} {| x := 0; y := - (176) |} b);
    cbn [x y fst snd app]; rewrite ?Rb, ?Py; try nra.
  rewrite (@edge_clear labConfig labSettings {| x := 0; y := - (176) |} {| x := 176; y := 0 |} b);
    cbn [x y fst snd app]; rewrite ?Rb, ?Py; try nra.
  reflexivity.
Qed.

Lemma drag_factor_bounds (c dt : R) :
  0 <= c < 1 -> 0 <= dt -> 0 < Rpower (1 - c) dt <= 1.
Proof.
  intros C D. unfold Rpower. split; [apply exp_pos|].
  assert (L : ln (1 - c) <= 0).
  { destruct (Req_dec c 0) as [->|N].
    - rewrite Rminus_0_r, ln_1. lra.
    - apply Rlt_le. apply Rlt_le_trans with (ln 1); [|rewrite ln_1; lra].
      apply ln_increasing; lra. }
  assert (P : dt * ln (1 - c) <= 0).
  { rewrite <- (Rmult_0_r dt). apply Rmult_le_compat_l; lra. }
  destruct (Req_dec (dt * ln (1 - c)) 0) as [->|N].
  - rewrite exp_0. lra.
  - apply Rle_trans with (exp 0); [|rewrite exp_0; lra].
    apply Rlt_le, exp_increasing. lra.
Qed.

Lemma drift_applyForces (dt bound : R) (b : Ball R) :
  0 <= dt <= 1 -> drifting bound b ->
  drifting (bound + 2) (applyForces labConfig labSettings dt None b).
Proof.
  intros D [Rb [Py [Px [Vy Vx]]]].
  unfold applyForces. rewrite kick_decay by (cbn; lra).
  pose proof (@drag_factor_bounds (viscosity labSettings + friction labConfig) dt) as Q.
  set (q := Rpower _ dt) in *.
  assert (Q' : 0 < q <= 1) by (apply Q; cbn; lra). clear Q.
  unfold drifting. cbn [radius pos vel set_pos set_vel x y add mult nadd nmul RNum].
  rewrite Rb, Py, Vy. clearbody q.
  assert (A : 0 <= x (vel b) * q <= 2) by nra.
  assert (B : 0 <= x (vel b) * q * dt <= 2) by nra.
  repeat split; try nra.
Qed.

Lemma drift_step (dt r rot bound : R) (st : SimState R) (b : Ball R) :
  r = 176 -> rot = 0 -> 0 <= dt <= 1 -> bound + 2 <= 100 ->
  balls st = [b] -> mousePos st = None -> drifting bound b ->
  let st' := runPhysicsStep labConfig labSettings dt r (generatePolygon 4 r origin rot) st in
  exists b', balls st' = [b'] /\ drifting (bound + 2) b'
             /\ collisionCount st' = collisionCount st
             /\ mousePos st' = None /\ rotation st' = rotation st.
Proof.
  intros Hr Hrot D Bd Bs M Dr st'. subst st'.
  unfold runPhysicsStep. rewrite Bs, M, square_vertices by trivial.
  cbn [forEach].
  pose proof (drift_applyForces D Dr) as Dr'.
  rewrite (@chamber_clear r _ (bound + 2)) by trivial.
  cbn [pairCollisions List.length seq fold_left pairRow Nat.sub app
       balls collisionCount mousePos rotation].
  exists (applyForces labConfig labSettings dt None b).
  split; [reflexivity|]. split; [exact Dr'|]. split; [apply Nat.add_0_r|].
  split; reflexivity.
Qed.

Lemma drift_subSteps (n : nat) (dt r : R) :
  r = 176 -> 0 <= dt <= 1 ->
  forall (bound : R) (st : SimState R) (b : Ball R),
  bound + 2 * INR n <= 100 ->
  balls st = [b] -> mousePos st = None -> rotation st = 0 -> drifting bound b ->
  collisionCount (subSteps labConfig labSettings n dt r st) = collisionCount st.
Proof.
  intros Hr D. induction n as [|n IH]; intros bound st b Bd Bs M Rt Dr.
  - reflexivity.
  - rewrite S_INR in Bd. pose proof (pos_INR n) as Pn.
    cbn [subSteps shapeType vertexCount labConfig].
    match goal with
    | |- context [runPhysicsStep _ _ dt r (generatePolygon 4 r origin ?rot) ?s1] =>
        destruct (@drift_step dt r rot bound s1 b) as [b' [Bs' [Dr' [C' [M' Rt']]]]];
          trivial; try lra;
          [ rewrite Rt; cbn; lra | ];
          rewrite (IH (bound + 2) _ b'); trivial; try lra
    end.
    rewrite Rt'. cbn [rotation]. rewrite Rt. cbn. lra.
Qed.

Lemma labCanvas_radius : shapeRadiusOf (num := R) labCanvas = 176.
Proof. unfold shapeRadiusOf, of_nat, dec. cbn. lra. Qed.

End Chamber.

(** ** The statements at the concrete inputs *)

Local Open Scope R_scope.

Lemma east_edge_normal_faces_centre :
  edgeNormal cornerSE cornerNE = {| x := -1; y := 0 |}
  /\ dot (edgeNormal cornerSE cornerNE) cornerSE = -10
  /\ edgeDist cornerSE cornerNE centreBall = 10.
Proof.
  unfold edgeDist. rewrite east_edge_normal. unfold dot.
  repeat split; cbn; lra.
Qed.

Lemma boundary_normal_points_inward_witness :
  dot (edgeNormal cornerSE cornerNE) cornerSE <= 0
  /\ dot (edgeNormal cornerSE cornerNE) (edgeNormal cornerSE cornerNE) = 1
  /\ pos (fst (collideEdge labConfig labSettings cornerSE cornerNE nearEdge))
     = add (pos nearEdge)
           (mult (edgeNormal cornerSE cornerNE)
                 (radius nearEdge - edgeDist cornerSE cornerNE nearEdge)).
Proof.
  destruct (@boundary_normal_points_inward labConfig labSettings cornerSE cornerNE nearEdge)
    as [S [_ [U [N _]]]].
  split; [exact S|]. split.
  - apply U. intros E. apply (f_equal (@y R)) in E. cbn in E. lra.
  - apply N. rewrite nearEdge_dist. cbn. lra.
Defined.

Lemma boundary_bounce_scenario_witness :
  pos (fst (collideEdge labConfig labSettings cornerSE cornerNE nearEdge))
  = add (pos nearEdge) (mult (edgeNormal cornerSE cornerNE) 2)
  /\ dot (vel (fst (collideEdge labConfig labSettings cornerSE cornerNE nearEdge)))
         (edgeNormal cornerSE cornerNE) = 1
  /\ snd (collideEdge labConfig labSettings cornerSE cornerNE nearEdge) = [2].
Proof.
  apply (@boundary_bounce_scenario labConfig labSettings cornerSE cornerNE nearEdge).
  - reflexivity.
  - exact nearEdge_dist.
  - rewrite east_edge_normal. unfold dot. cbn. lra.
  - unfold effectiveRestitution. cbn. lra.
Defined.

Lemma pair_collision_conserves_momentum_witness :
  let '(a', b', _) := collidePair elasticConfig labSettings leftBall rightBall in
  add (vel a') (vel b') = add (vel leftBall) (vel rightBall)
  /\ dot (vel a') (normalize (sub (pos rightBall) (pos leftBall)))
     = dot (vel rightBall) (normalize (sub (pos rightBall) (pos leftBall)))
  /\ dot (vel b') (normalize (sub (pos rightBall) (pos leftBall)))
     = dot (vel leftBall) (normalize (sub (pos rightBall) (pos leftBall))).
Proof.
  pose proof (@pair_collision_conserves_momentum elasticConfig labSettings leftBall rightBall)
    as T. cbv zeta in T.
  destruct (collidePair elasticConfig labSettings leftBall rightBall) as [[a' b'] h].
  destruct T as [M X]. split; [exact M|]. apply X.
  - unfold effectiveRestitution. cbn. lra.
  - rewrite pair_distance. cbn. lra.
  - rewrite pair_normal. unfold dot. cbn. lra.
Defined.

Lemma pair_collision_restitution_witness :
  let '(a', b', h) := collidePair labConfig labSettings leftBall rightBall in
  dot (sub (vel b') (vel a')) (normalize (sub (pos rightBall) (pos leftBall)))
  = - effectiveRestitution labConfig labSettings
    * dot (sub (vel rightBall) (vel leftBall)) (normalize (sub (pos rightBall) (pos leftBall)))
  /\ h = [Rabs (dot (sub (vel rightBall) (vel leftBall))
                    (normalize (sub (pos rightBall) (pos leftBall))))].
Proof.
  pose proof (@pair_collision_restitution labConfig labSettings leftBall rightBall) as T.
  cbv zeta in T.
  destruct (collidePair labConfig labSettings leftBall rightBall) as [[a' b'] h].
  destruct T as [S [_ [_ Hh]]].
  - rewrite pair_distance. cbn. lra.
  - rewrite pair_normal. unfold dot. cbn. lra.
  - split; assumption.
Defined.

Lemma drag_decay_substep_invariant_witness :
  map (@vel R)
      (balls (subSteps labConfig labSettings 4 (ndiv 1 (of_nat 4))
                       (shapeRadiusOf labCanvas) oneBall))
  = map (fun b => mult (vel b)
                    (Rpower (1 - (viscosity labSettings + friction labConfig)) 1))
        (balls oneBall).
Proof.
  apply (@drag_decay_substep_invariant labConfig labSettings 4 1
           (shapeRadiusOf labCanvas) oneBall).
  - cbn. lra.
  - reflexivity.
  - reflexivity.
  - lia.
  - apply (@drift_subSteps 4 _ _ labCanvas_radius) with (bound := 7) (b := nearEdge);
      try reflexivity.
    + unfold of_nat. cbn. lra.
    + cbn. lra.
    + unfold drifting. cbn. lra.
Defined.

Lemma paused_frames_freeze_particles_witness :
  map (@pos R) (balls (fst (frames labConfig pausedSettings
                                   [Some labCanvas; None; Some labCanvas] oneBall)))
  = map (@pos R) (balls oneBall)
  /\ map (@vel R) (balls (fst (frames labConfig pausedSettings
                                      [Some labCanvas; None; Some labCanvas] oneBall)))
     = map (@vel R) (balls oneBall).
Proof.
  destruct (@paused_frames_freeze_particles labConfig pausedSettings eq_refl) as [F _].
  exact (F [Some labCanvas; None; Some labCanvas] oneBall).
Defined.

Lemma paused_frame_leaves_trail_alone :
  showTrails pausedSettings = true
  /\ map (@trail R) (balls oneBall) = [[]]
  /\ map (@trail R) (balls (fst (tick labConfig pausedSettings (Some labCanvas) oneBall)))
     = [[]].
Proof.
  split; [reflexivity|]. split; [reflexivity|].
  rewrite tick_balls by reflexivity.
  rewrite advance_paused by (apply Rltb_false; cbn; lra).
  cbn [balls oneBall map]. f_equal.
  unfold drawBall. cbn [trail set_trail].
  destruct (updateTrail_cases pausedSettings
              (screenPos (centerOf labCanvas) nearEdge) (trail nearEdge)) as [_ [C _]].
  rewrite C; trivial.
  apply Rltb_false. cbn. lra.
Qed.

Lemma trail_bounded_fifo_witness :
  Forall (@bounded R)
         (balls (fst (frames labConfig labSettings [Some labCanvas; Some labCanvas] oneBall))).
Proof.
  destruct (@trail_bounded_fifo labConfig labSettings) as [B _].
  apply (B [Some labCanvas; Some labCanvas] oneBall).
  repeat constructor.
Defined.

Lemma telemetry_one_snapshot_per_window_witness :
  List.length (emissions (snd (frames labConfig labSettings
                                      (repeat (Some labCanvas) 20) oneBall))) = 1%nat
  /\ statsTick (fst (frames labConfig labSettings (repeat (Some labCanvas) 20) oneBall))
     = 0%nat.
Proof.
  destruct (@telemetry_one_snapshot_per_window R _ _ labConfig labSettings) as [_ W].
  apply (W (repeat (Some labCanvas) 20) oneBall).
  - repeat constructor; exists labCanvas; split; reflexivity.
  - cbn. lia.
Defined.

Lemma initialisation_resets_state_witness :
  rotation (onRender elasticConfig (Some labConfig) (fun _ => 1 / 2) oneBall) = 0
  /\ List.length (balls (onRender elasticConfig (Some labConfig) (fun _ => 1 / 2) oneBall))
     = 2%nat.
Proof.
  destruct (@initialisation_resets_state elasticConfig (Some labConfig)
              (fun _ => 1 / 2) oneBall) as [Rt [L _]].
  - intros _. lra.
  - cbn. lra.
  - left. cbn. lra.
  - split; assumption.
Defined.

Lemma zero_particles_average_not_finite_witness :
  exists v n,
    option_map (@emitted float)
      (snd (tick (H0 := FloatMath (fun a => a) (fun a => a) (fun a _ => a))
                 emptyConfig floatSettings (Some labCanvas) windowClosing))
    = Some (Some (v, n))
    /\ v = PrimFloat.div (PrimFloat.add (totalKe windowClosing) PrimFloat.zero) PrimFloat.zero
    /\ finiteF v = false
    /\ (totalKe windowClosing = PrimFloat.zero -> PrimFloat.is_nan v = true)
    /\ totalKe (fst (tick (H0 := FloatMath (fun a => a) (fun a => a) (fun a _ => a))
                          emptyConfig floatSettings (Some labCanvas) windowClosing))
       = PrimFloat.zero
    /\ collisionCount (fst (tick (H0 := FloatMath (fun a => a) (fun a => a) (fun a _ => a))
                                 emptyConfig floatSettings (Some labCanvas) windowClosing))
       = 0%nat
    /\ statsTick (fst (tick (H0 := FloatMath (fun a => a) (fun a => a) (fun a _ => a))
                            emptyConfig floatSettings (Some labCanvas) windowClosing))
       = 0%nat.
Proof.
  apply (@zero_particles_average_not_finite (fun a => a) (fun a => a) (fun a _ => a)
           emptyConfig floatSettings labCanvas windowClosing); reflexivity.
Defined.
(** ** More on collisions over the reals *)

Section MoreCollisions.

Local Open Scope R_scope.
Variable config : SimulationConfig R.
Variable globalSettings : GlobalSettings R.

Local Abbreviation e := (effectiveRestitution config globalSettings).

Ltac real_ops :=
  cbn [x y pos vel radius set_pos set_vel add sub mult fst snd
       lit nadd nsub nmul ndiv nneg RNum] in *.

(** A push along a unit normal changes the signed distance by its length. *)
Lemma dist_after_push (nx ny px py qx qy k : R) :
  nx * nx + ny * ny = 1 ->
  (px + nx * k - qx) * nx + (py + ny * k - qy) * ny
  = ((px - qx) * nx + (py - qy) * ny) + k.
Proof.
  intros U.
  replace ((px + nx * k - qx) * nx + (py + ny * k - qy) * ny)
    with (((px - qx) * nx + (py - qy) * ny) + k * (nx * nx + ny * ny)) by ring.
  rewrite U. ring.
Qed.

(** X1: when a particle penetrates a non-degenerate edge, the push-out of
    line 124 puts it exactly on the surface: its signed distance from that
    edge becomes its radius, which is unchanged. *)
Theorem wall_pushout_lands_on_surface (p1 p2 : Vector2 R) (ball : Ball R) :
  p1 <> p2 ->
  edgeDist p1 p2 ball < radius ball ->
  let b' := fst (collideEdge config globalSettings p1 p2 ball) in
  edgeDist p1 p2 b' = radius ball /\ radius b' = radius ball.
Proof.
  intros N D b'. subst b'.
  pose proof (edgeNormal_unit N) as U.
  pose proof (@collideEdge_near config globalSettings p1 p2 ball D) as P.
  pose proof (@collideEdge_inert R _ config globalSettings p1 p2 ball) as I.
  split; [|unfold inert in I; congruence].
  unfold edgeDist at 1. rewrite P.
  unfold edgeDist in *. unfold dot in *. real_ops.
  rewrite dist_after_push by exact U. lra.
Qed.

(** X2: the reflection of lines 125-131, for a particle penetrating a
    non-degenerate edge.  If it moves into the wall ([vn < 0]) its normal
    velocity becomes [- e * vn], its velocity along the edge is kept, its
    squared speed changes by exactly [- (1 - e^2) vn^2], and one collision of
    force [|vn|] is recorded.  If it does not, its velocity is kept and no
    collision is recorded. *)
Theorem wall_reflection (p1 p2 : Vector2 R) (ball : Ball R) :
  p1 <> p2 ->
  edgeDist p1 p2 ball < radius ball ->
  let n := edgeNormal p1 p2 in
  let vn := dot (vel ball) n in
  let r := collideEdge config globalSettings p1 p2 ball in
  (vn < 0 ->
   dot (vel (fst r)) n = - e * vn
   /\ dot (vel (fst r)) (sub p2 p1) = dot (vel ball) (sub p2 p1)
   /\ dot (vel (fst r)) (vel (fst r))
      = dot (vel ball) (vel ball) - (1 - e * e) * (vn * vn)
   /\ snd r = [- vn])
  /\ (0 <= vn -> vel (fst r) = vel ball /\ snd r = []).
Proof.
  intros N D n vn r.
  pose proof (edgeNormal_unit N) as U. pose proof (edgeNormal_perp p1 p2) as T.
  fold n in U, T.
  subst r. unfold collideEdge. fold n.
  rewrite if_Rltb_true by exact D. cbn [vel set_pos]. fold vn.
  split.
  - intros A. rewrite if_Rltb_true by exact A. cbn [fst snd vel set_vel].
    assert (Vn : vn = x (vel ball) * x n + y (vel ball) * y n) by reflexivity.
    clearbody vn.
    unfold dot in *. real_ops.
    set (k := (1 + e) * vn) in *.
    repeat split.
    + replace ((x (vel ball) - x n * k) * x n + (y (vel ball) - y n * k) * y n)
        with ((x (vel ball) * x n + y (vel ball) * y n) - k * (x n * x n + y n * y n))
        by ring.
      rewrite U, <- Vn. unfold k. ring.
    + replace ((x (vel ball) - x n * k) * (x p2 - x p1)
               + (y (vel ball) - y n * k) * (y p2 - y p1))
        with ((x (vel ball) * (x p2 - x p1) + y (vel ball) * (y p2 - y p1))
              - k * (x n * (x p2 - x p1) + y n * (y p2 - y p1))) by ring.
      rewrite T. ring.
    + replace ((x (vel ball) - x n * k) * (x (vel ball) - x n * k)
               + (y (vel ball) - y n * k) * (y (vel ball) - y n * k))
        with ((x (vel ball) * x (vel ball) + y (vel ball) * y (vel ball))
              - 2 * k * (x (vel ball) * x n + y (vel ball) * y n)
              + k * k * (x n * x n + y n * y n)) by ring.
      rewrite U, <- Vn. unfold k. ring.
    + cbn [Math_abs RNum]. f_equal. apply Rabs_left. exact A.
  - intros A. rewrite if_Rltb_false by exact A. split; reflexivity.
Qed.

Lemma mag_normalize (v : Vector2 R) : mag v <> 0 -> mag (normalize v) = 1.
Proof.
  intros N. apply mag_value; [lra|].
  pose proof (@normalize_unit v N) as U. unfold dot in U. cbn [nadd nmul RNum] in U. lra.
Qed.

(** X3: the positional correction of lines 145-148, for two overlapping
    particles with distinct centres.  Afterwards the centres are exactly the
    sum of the radii apart, their midpoint has not moved, and each particle has
    moved by half the overlap. *)
Theorem overlap_correction (a b : Ball R) :
  pos a <> pos b ->
  mag (sub (pos b) (pos a)) < radius a + radius b ->
  let overlap := radius a + radius b - mag (sub (pos b) (pos a)) in
  let '(a', b', _) := collidePair config globalSettings a b in
  mag (sub (pos b') (pos a')) = radius a + radius b
  /\ add (pos a') (pos b') = add (pos a) (pos b)
  /\ mag (sub (pos a') (pos a)) = overlap / 2
  /\ mag (sub (pos b') (pos b)) = overlap / 2.
Proof.
  intros N O overlap.
  set (diff := sub (pos b) (pos a)) in *.
  pose proof (mag_sqr diff) as D2. pose proof (mag_nonneg diff) as D0.
  assert (Dn : mag diff <> 0).
  { intros Z. apply mag_zero in Z as [X Y]. apply N.
    unfold diff in X, Y. cbn [x y sub nsub RNum] in X, Y. apply vec_eq; lra. }
  pose proof (@normalize_unit diff Dn) as U.
  assert (Nx : x (normalize diff) = x diff / mag diff) by reflexivity.
  assert (Ny : y (normalize diff) = y diff / mag diff) by reflexivity.
  set (n := normalize diff) in *. set (d := mag diff) in *.
  unfold collidePair. fold diff. fold d. fold n.
  rewrite if_Rltb_true by exact O.
  cbn [vel set_pos].
  assert (G : forall (a1 b1 : Ball R),
             pos a1 = sub (pos a) (mult n (ndiv (nsub (nadd (radius a) (radius b)) d) (lit 2))) ->
             pos b1 = add (pos b) (mult n (ndiv (nsub (nadd (radius a) (radius b)) d) (lit 2))) ->
             mag (sub (pos b1) (pos a1)) = radius a + radius b
             /\ add (pos a1) (pos b1) = add (pos a) (pos b)
             /\ mag (sub (pos a1) (pos a)) = overlap / 2
             /\ mag (sub (pos b1) (pos b)) = overlap / 2).
  { intros a1 b1 -> ->. clearbody n d. unfold dot in U. subst overlap.
    unfold diff in *. real_ops.
    set (M := radius a + radius b) in *.
    repeat split.
    - apply mag_value; [lra|]. real_ops. rewrite Nx, Ny.
      transitivity (((x (pos b) - x (pos a)) * (x (pos b) - x (pos a))
                     + (y (pos b) - y (pos a)) * (y (pos b) - y (pos a)))
                    * (M / d) * (M / d)); [|field; lra].
      rewrite <- D2. field. lra.
    - apply vec_eq; real_ops; lra.
    - apply mag_value; [lra|]. real_ops.
      transitivity ((x n * x n + y n * y n) * ((M - d) / 2) * ((M - d) / 2)); [|ring].
      rewrite U. ring.
    - apply mag_value; [lra|]. real_ops.
      transitivity ((x n * x n + y n * y n) * ((M - d) / 2) * ((M - d) / 2)); [|ring].
      rewrite U. ring. }
  match goal with |- context [if ?c then _ else _] => destruct c end;
    apply G; reflexivity.
Qed.

(** X4: the kinetic energy through a resolved pair collision (lines
    149-157): the sum of the squared speeds changes by exactly
    [- (1 - e^2) s^2 / 2], [s] the separating velocity. *)
Theorem pair_collision_energy (a b : Ball R) :
  let n := normalize (sub (pos b) (pos a)) in
  let s := dot (sub (vel b) (vel a)) n in
  mag (sub (pos b) (pos a)) < radius a + radius b ->
  s < 0 ->
  let '(a', b', _) := collidePair config globalSettings a b in
  dot (vel a') (vel a') + dot (vel b') (vel b')
  = dot (vel a) (vel a) + dot (vel b) (vel b) - (1 - e * e) * (s * s) / 2.
Proof.
  intros n s O A.
  assert (U : dot n n = 1).
  { destruct (normalize_cases (sub (pos b) (pos a))) as [U|[X Y]]; trivial.
    exfalso. subst s n. unfold dot in A. real_ops. rewrite X, Y in A. lra. }
  unfold collidePair. fold n.
  rewrite if_Rltb_true by exact O.
  cbn [vel set_pos]. fold s. rewrite if_Rltb_true by exact A.
  cbn [vel set_vel].
  assert (S : s = dot (vel b) n - dot (vel a) n).
  { subst s. unfold dot. real_ops. ring. }
  clearbody s n. unfold dot in *. real_ops.
  set (k := s * (1 + e) / 2).
  transitivity ((x (vel a) * x (vel a) + y (vel a) * y (vel a))
                + (x (vel b) * x (vel b) + y (vel b) * y (vel b))
                - 2 * k * ((x (vel b) * x n + y (vel b) * y n)
                           - (x (vel a) * x n + y (vel a) * y n))
                + 2 * k * k * (x n * x n + y n * y n)); [ring|].
  rewrite U, <- S. unfold k. field.
Qed.

End MoreCollisions.

Local Open Scope R_scope.

Lemma corners_differ : cornerSE <> cornerNE.
Proof. intros E. apply (f_equal (@y R)) in E. cbn in E. lra. Qed.

Lemma wall_pushout_lands_on_surface_witness :
  edgeDist cornerSE cornerNE (fst (collideEdge labConfig labSettings cornerSE cornerNE nearEdge))
  = radius nearEdge
  /\ radius (fst (collideEdge labConfig labSettings cornerSE cornerNE nearEdge))
     = radius nearEdge.
Proof.
  apply (@wall_pushout_lands_on_surface labConfig labSettings cornerSE cornerNE nearEdge).
  - exact corners_differ.
  - rewrite nearEdge_dist. cbn. lra.
Defined.

Lemma wall_reflection_witness :
  dot (vel (fst (collideEdge labConfig labSettings cornerSE cornerNE nearEdge)))
      (edgeNormal cornerSE cornerNE)
  = - effectiveRestitution labConfig labSettings
    * dot (vel nearEdge) (edgeNormal cornerSE cornerNE)
  /\ dot (vel (fst (collideEdge labConfig labSettings cornerSE cornerNE nearEdge)))
         (sub cornerNE cornerSE)
     = dot (vel nearEdge) (sub cornerNE cornerSE).
Proof.
  destruct (@wall_reflection labConfig labSettings cornerSE cornerNE nearEdge)
    as [A _].
  - exact corners_differ.
  - rewrite nearEdge_dist. cbn. lra.
  - destruct A as [A1 [A2 _]].
    + rewrite east_edge_normal. unfold dot. cbn. lra.
    + split; assumption.
Defined.

Lemma overlap_correction_witness :
  let '(a', b', _) := collidePair labConfig labSettings leftBall rightBall in
  mag (sub (pos b') (pos a')) = radius leftBall + radius rightBall
  /\ add (pos a') (pos b') = add (pos leftBall) (pos rightBall).
Proof.
  pose proof (@overlap_correction labConfig labSettings leftBall rightBall) as T.
  cbv zeta in T.
  destruct (collidePair labConfig labSettings leftBall rightBall) as [[a' b'] h].
  destruct T as [M [C _]].
  - intros E. apply (f_equal (@x R)) in E. cbn in E. lra.
  - rewrite pair_distance. cbn. lra.
  - split; assumption.
Defined.

Lemma pair_collision_energy_witness :
  let '(a', b', _) := collidePair labConfig labSettings leftBall rightBall in
  dot (vel a') (vel a') + dot (vel b') (vel b')
  = dot (vel leftBall) (vel leftBall) + dot (vel rightBall) (vel rightBall)
    - (1 - effectiveRestitution labConfig labSettings
           * effectiveRestitution labConfig labSettings)
      * (dot (sub (vel rightBall) (vel leftBall))
             (normalize (sub (pos rightBall) (pos leftBall)))
         * dot (sub (vel rightBall) (vel leftBall))
               (normalize (sub (pos rightBall) (pos leftBall)))) / 2.
Proof.
  pose proof (@pair_collision_energy labConfig labSettings leftBall rightBall) as T.
  cbv zeta in T.
  destruct (collidePair labConfig labSettings leftBall rightBall) as [[a' b'] h].
  apply T.
  - rewrite pair_distance. cbn. lra.
  - rewrite pair_normal. unfold dot. cbn. lra.
Defined.

(** ** Free flight *)

Section FreeFlight.

Local Open Scope R_scope.
Variable config : SimulationConfig R.
Variable globalSettings : GlobalSettings R.

Lemma fold_left_fixed (A S : Type) (f : S -> A -> S) (l : list A) (s : S) :
  (forall a, In a l -> f s a = s) -> fold_left f l s = s.
Proof.
  induction l as [|a l IH]; intros K; cbn [fold_left]; trivial.
  rewrite (K a) by now left. apply IH. intros a' Ha. apply K. now right.
Qed.

Lemma boundCollisions_clear (vs : list (Vector2 R)) (b : Ball R) :
  clearOfWalls vs b -> boundCollisions config globalSettings vs b = (b, []).
Proof.
  intros C. unfold boundCollisions. apply fold_left_fixed.
  intros i Hi. apply in_seq in Hi. unfold edgeStep. cbn [fst snd].
  rewrite collideEdge_far by (apply C; lia). reflexivity.
Qed.

Lemma collidePair_apart (a b : Ball R) :
  radius a + radius b <= mag (sub (pos b) (pos a)) ->
  collidePair config globalSettings a b = (a, b, []).
Proof. intros F. unfold collidePair. now rewrite if_Rltb_false. Qed.

Lemma pairCollisions_apart (bs : list (Ball R)) :
  apart bs -> pairCollisions config globalSettings bs = (bs, []).
Proof.
  intros P. unfold pairCollisions. apply fold_left_fixed.
  intros i _. unfold pairRow. apply fold_left_fixed.
  intros j Hj. apply in_seq in Hj. unfold resolveAt. cbn [fst snd].
  destruct (nth_error bs i) as [a|] eqn:Hi; trivial.
  destruct (nth_error bs j) as [b|] eqn:Hb; trivial.
  rewrite collidePair_apart by (apply (P i j); trivial; lia).
  rewrite (@update_same _ i a bs Hi), (@update_same _ j b bs Hb). reflexivity.
Qed.

(** X5: free flight.  When, after the forces of lines 93-110, no particle
    penetrates an edge and no two particles overlap, a physics step only
    applies those forces: nothing is pushed or reflected, no collision is
    counted and no sound is played. *)
Theorem free_flight (dt r : R) (vs : list (Vector2 R)) (st : SimState R) :
  let moved := map (applyForces config globalSettings dt (mousePos st)) (balls st) in
  Forall (clearOfWalls vs) moved ->
  apart moved ->
  let st' := runPhysicsStep config globalSettings dt r vs st in
  balls st' = moved
  /\ collisionCount st' = collisionCount st
  /\ played st' = played st.
Proof.
  intros moved W P st'. subst st'. unfold runPhysicsStep.
  set (f := fun ball => boundCollisions config globalSettings vs
              (applyForces config globalSettings dt (mousePos st) ball)).
  pose proof (forEach_fst f (balls st)) as F1.
  pose proof (forEach_snd f (balls st)) as F2.
  assert (Q : forall b, In b (balls st) ->
                f b = (applyForces config globalSettings dt (mousePos st) b, [])).
  { intros b Hb. unfold f. apply boundCollisions_clear.
    rewrite Forall_forall in W. apply W. unfold moved. now apply in_map. }
  assert (E1 : fst (forEach f (balls st)) = moved).
  { rewrite F1. unfold moved. apply map_ext_in. intros b Hb. now rewrite Q. }
  assert (E2 : snd (forEach f (balls st)) = []).
  { rewrite F2. clear - Q. induction (balls st) as [|b l IH]; trivial.
    cbn [flat_map]. rewrite Q by now left. cbn [snd app].
    apply IH. intros b' Hb'. apply Q. now right. }
  destruct (forEach f (balls st)) as [bs1 h1]. cbn [fst snd] in E1, E2. subst bs1 h1.
  rewrite (pairCollisions_apart P). cbn [balls collisionCount played app List.length].
  repeat split.
  - apply Nat.add_0_r.
  - destruct (enableAudio globalSettings); cbn [filter]; apply app_nil_r.
Qed.

End FreeFlight.

Section FreeFlightWitness.

Local Open Scope R_scope.

(** The distance form of the clearance condition: with [e = p2 - p1],
    [c = p1 x p2 > 0] and [q = c + e x pos], a ball with [q >= radius * |e|]
    is at least its radius away from the edge. *)
Lemma edge_far (p1 p2 : Vector2 R) (ball : Ball R) :
  let ex := x p2 - x p1 in
  let ey := y p2 - y p1 in
  let c := x p1 * y p2 - y p1 * x p2 in
  let q := c - ey * x (pos ball) + ex * y (pos ball) in
  0 < c -> 0 <= radius ball -> 0 <= q ->
  radius ball * radius ball * (ex * ex + ey * ey) <= q * q ->
  radius ball <= edgeDist p1 p2 ball.
Proof.
  intros ex ey c q C Rp Q S.
  unfold edgeDist, edgeNormal, normalize.
  set (perp := {| x := nneg (y (sub p2 p1)); y := x (sub p2 p1) |}).
  pose proof (mag_sqr perp) as M2. pose proof (mag_nonneg perp) as M0.
  set (m := mag perp) in *. clearbody m.
  cbn [perp x y sub nsub nneg ndiv RNum] in *. fold ex ey in M2 |- *.
  assert (Mp : 0 < m).
  { destruct (Req_dec m 0) as [Z|N]; [|lra].
    exfalso. rewrite Z in M2.
    assert (ex = 0 /\ ey = 0) as [X Y] by nra.
    subst c ex ey. nra. }
  rewrite if_Rltb_false.
  - unfold dot. cbn [x y sub nsub nadd nmul RNum].
    replace ((x (pos ball) - x p1) * (- ey / m) + (y (pos ball) - y p1) * (ex / m))
      with (q / m) by (subst q c ex ey; field; lra).
    apply Rmult_le_reg_r with m; trivial.
    replace (q / m * m) with q by (field; lra).
    apply Rsqr_incr_0_var; trivial.
    unfold Rsqr.
    replace (radius ball * m * (radius ball * m))
      with (radius ball * radius ball * (m * m)) by ring.
    rewrite M2. nra.
  - unfold dot. cbn [x y lit nadd nmul RNum].
    replace (- ey / m * x p1 + ex / m * y p1) with (- c / m) by (subst c ex ey; field; lra).
    apply Rlt_le. apply Rdiv_neg_pos; lra.
Qed.

Lemma squareChamber_far (bound : R) (b : Ball R) :
  bound <= 100 -> drifting bound b -> clearOfWalls squareChamber b.
Proof.
  intros Bd [Rb [Py [Px _]]] i Hi.
  unfold squareChamber in *. cbn [List.length] in *.
  destruct i as [|[|[|[|i]]]]; try lia;
    cbn [nth Nat.add Nat.modulo Nat.divmod Nat.sub fst snd];
    apply edge_far; cbn [x y]; rewrite ?Rb, ?Py; nra.
Qed.

Lemma free_flight_witness :
  balls (runPhysicsStep labConfig labSettings (1 / 4) 176 squareChamber twoBalls)
  = map (applyForces labConfig labSettings (1 / 4) (mousePos twoBalls)) (balls twoBalls)
  /\ collisionCount (runPhysicsStep labConfig labSettings (1 / 4) 176 squareChamber twoBalls)
     = collisionCount twoBalls
  /\ played (runPhysicsStep labConfig labSettings (1 / 4) 176 squareChamber twoBalls)
     = played twoBalls.
Proof.
  assert (D : 0 <= 1 / 4 <= 1) by lra.
  apply (@free_flight labConfig labSettings (1 / 4) 176 squareChamber twoBalls).
  - cbn [balls twoBalls map mousePos].
    apply Forall_cons; [|apply Forall_cons; [|apply Forall_nil]].
    + apply squareChamber_far with (bound := 0 + 2); [lra|].
      apply drift_applyForces; trivial. unfold drifting. cbn. lra.
    + apply squareChamber_far with (bound := 50 + 2); [lra|].
      apply drift_applyForces; trivial. unfold drifting. cbn. lra.
  - cbn [balls twoBalls map mousePos]. intros i j a b L Ha Hb.
    destruct i as [|[|i]], j as [|[|j]]; try lia; cbn in Ha, Hb; try discriminate;
      try (destruct j; discriminate); try (destruct i; discriminate).
    injection Ha as <-. injection Hb as <-.
    unfold applyForces. rewrite !kick_decay by (cbn; lra).
    cbn [radius set_pos set_vel pos ballAt].
    rewrite (@mag_value _ 50); cbn; lra.
Defined.

End FreeFlightWitness.

(** ** Forces and the turning container *)

Section Forces.

Local Open Scope R_scope.
Variable config : SimulationConfig R.
Variable globalSettings : GlobalSettings R.

Lemma mag_mult (v : Vector2 R) (s : R) : mag (mult v s) = Rabs s * mag v.
Proof.
  pose proof (mag_sqr v) as M. pose proof (mag_nonneg v) as P.
  pose proof (Rabs_pos s) as A.
  assert (Q : Rabs s * Rabs s = s * s).
  { rewrite <- Rabs_mult. apply Rabs_pos_eq. nra. }
  apply mag_value; [nra|].
  cbn [x y mult nmul RNum].
  transitivity ((Rabs s * Rabs s) * (mag v * mag v)); [ring|].
  rewrite Q, M. ring.
Qed.

(** X6: the pointer attraction of lines 101-108.  A pointer 120 or more away
    has no effect.  A pointer at a distance [d] with [0 < d < 120] adds to
    the velocity a vector along the direction to the pointer, of length
    [400 / (d + 20) * |dt|], which is at most [20 |dt|]. *)
Theorem pointer_attraction (dt : R) (m : Vector2 R) (ball : Ball R) :
  let toMouse := sub m (pos ball) in
  let d := mag toMouse in
  let free := kick config globalSettings dt (vel ball) in
  let b' := applyForces config globalSettings dt (Some m) ball in
  (120 <= d -> vel b' = free)
  /\ (0 < d < 120 ->
      vel b' = add free (mult toMouse (400 / (d + 20) / d * dt))
      /\ mag (sub (vel b') free) = 400 / (d + 20) * Rabs dt
      /\ mag (sub (vel b') free) <= 20 * Rabs dt).
Proof.
  intros toMouse d free b'. subst b'. unfold applyForces. fold free toMouse d.
  cbn [vel set_pos set_vel]. split.
  - intros F. now rewrite if_Rltb_false.
  - intros [P L]. rewrite if_Rltb_true by exact L.
    assert (E : add free (mult (mult (normalize toMouse) (ndiv (lit 400) (nadd d (lit 20)))) dt)
                = add free (mult toMouse (400 / (d + 20) / d * dt))).
    { unfold normalize. fold d. clearbody d free toMouse.
      apply vec_eq; cbn [x y add mult lit nadd nmul ndiv RNum]; field; lra. }
    rewrite E. split; [reflexivity|].
    assert (S : sub (add free (mult toMouse (400 / (d + 20) / d * dt))) free
                = mult toMouse (400 / (d + 20) / d * dt)).
    { apply vec_eq; cbn [x y add sub mult nadd nsub nmul RNum]; ring. }
    rewrite S, mag_mult. fold d.
    assert (K : 0 < 400 / (d + 20) / d).
    { apply Rdiv_lt_0_compat; [apply Rdiv_lt_0_compat|]; lra. }
    rewrite Rabs_mult, (Rabs_pos_eq (400 / (d + 20) / d)) by lra.
    assert (V : 400 / (d + 20) / d * Rabs dt * d = 400 / (d + 20) * Rabs dt)
      by (field; lra).
    rewrite V. split; [reflexivity|].
    pose proof (Rabs_pos dt) as A.
    assert (B : 400 / (d + 20) <= 20).
    { apply Rmult_le_reg_r with (d + 20); [lra|].
      replace (400 / (d + 20) * (d + 20)) with 400 by (field; lra). lra. }
    nra.
Qed.

(** X7: the gravity vector of lines 87-89 has the length
    [|gravity * gravityMultiplier|] at every angle; at the angle of 90 degrees
    that [App] starts with it points along the vertical axis of the screen;
    and with a multiplier of zero the velocity is only scaled by the drag
    factor. *)
Theorem gravity_vector :
  gravityX config globalSettings * gravityX config globalSettings
  + gravityY config globalSettings * gravityY config globalSettings
  = (gravity config * gravityMultiplier globalSettings)
    * (gravity config * gravityMultiplier globalSettings)
  /\ (gravityAngle globalSettings = 90 ->
      gravityX config globalSettings = 0
      /\ gravityY config globalSettings = gravity config * gravityMultiplier globalSettings)
  /\ (gravityMultiplier globalSettings = 0 ->
      forall dt v,
        kick config globalSettings dt v
        = mult v (Math_pow (1 - (viscosity globalSettings + friction config)) dt)).
Proof.
  unfold kick, gravityX, gravityY.
  cbn [lit nadd nsub nmul ndiv Math_cos Math_sin Math_PI RNum RMath].
  set (rad := gravityAngle globalSettings * PI / 180).
  split; [|split; [intros H; split|intros H]].
  - transitivity ((Rsqr (sin rad) + Rsqr (cos rad))
                  * ((gravity config * gravityMultiplier globalSettings)
                     * (gravity config * gravityMultiplier globalSettings)));
      [unfold Rsqr; ring|].
    rewrite sin2_cos2. ring.
  - subst rad. rewrite H. replace (90 * PI / 180) with (PI / 2) by field.
    rewrite cos_PI2. ring.
  - subst rad. rewrite H. replace (90 * PI / 180) with (PI / 2) by field.
    rewrite sin_PI2. ring.
  - intros dt v. rewrite H.
    f_equal. apply vec_eq; cbn [x y]; ring.
Qed.

(** The rotation after [n] sub-steps. *)
Lemma subSteps_rotation (n : nat) (dt r : R) :
  forall st : SimState R,
  rotation (subSteps config globalSettings n dt r st)
  = rotation st
    + INR n * (rotationSpeed config * rotationMultiplier globalSettings * dt).
Proof.
  induction n as [|n IH]; intros st.
  - cbn [subSteps INR]. ring.
  - cbn [subSteps]. rewrite IH.
    match goal with
    | |- context [runPhysicsStep _ _ dt r ?vs ?s0] =>
        destruct (runPhysicsStep_frame config globalSettings dt r vs s0) as [Rt _]
    end.
    cbv zeta in Rt. rewrite Rt. cbn [rotation nadd nmul RNum].
    rewrite S_INR. ring.
Qed.

(** X8: over a drawn frame with a positive time scale and at least one
    sub-step, the container turns by
    [rotationSpeed * rotationMultiplier * timeScale], whatever the number of
    sub-steps. *)
Theorem rotation_per_frame (cv : CanvasEl) (st : SimState R) :
  visible cv = true ->
  0 < timeScale globalSettings ->
  (0 < precision globalSettings)%nat ->
  rotation (fst (tick config globalSettings (Some cv) st))
  = rotation st
    + rotationSpeed config * rotationMultiplier globalSettings * timeScale globalSettings.
Proof.
  intros V T K.
  rewrite (tick_visible config globalSettings cv st V). cbn [fst].
  unfold telemetry.
  match goal with |- context [if ?c then _ else _] => destruct c end;
    cbn [fst rotation drawn]; unfold advance;
    rewrite if_Rltb_true by exact T;
    rewrite subSteps_rotation, of_nat_INR; cbn [ndiv RNum]; field;
    apply not_0_INR; lia.
Qed.

End Forces.

Lemma rotation_per_frame_witness :
  rotation (fst (tick spinConfig labSettings (Some labCanvas) twoBalls))
  = rotation twoBalls
    + rotationSpeed spinConfig * rotationMultiplier labSettings * timeScale labSettings.
Proof.
  apply (@rotation_per_frame spinConfig labSettings labCanvas twoBalls).
  - reflexivity.
  - cbn. lra.
  - cbn. lia.
Defined.

(** ** Sounds and colours *)

Section Sounds.

Context {num : Type} `{JSNumber num} `{JSMath num}.
Variable config : SimulationConfig num.
Variable globalSettings : GlobalSettings num.

(** What a stretch of the simulation adds to the sounds played and to the
    collision counter. *)
Lemma runPhysicsStep_sounds (dt r : num) (vs : list (Vector2 num)) (st : SimState num) :
  let st' := runPhysicsStep config globalSettings dt r vs st in
  exists new,
    played st' = played st ++ new
    /\ Forall (fun force => nlt (lit 1) force = true) new
    /\ (collisionCount st + List.length new <= collisionCount st')%nat
    /\ (enableAudio globalSettings = false -> new = []).
Proof.
  unfold runPhysicsStep.
  destruct (forEach _ (balls st)) as [bs1 h1].
  destruct (pairCollisions config globalSettings bs1) as [bs2 h2].
  cbn [played collisionCount].
  exists (if enableAudio globalSettings
          then filter (fun force => nlt (lit 1) force) (h1 ++ h2) else []).
  split; [reflexivity|].
  destruct (enableAudio globalSettings).
  - split; [|split; [|discriminate]].
    + apply Forall_forall. intros f Hf. now apply filter_In in Hf.
    + pose proof (filter_length_le (fun force => nlt (lit 1) force) (h1 ++ h2)).
      lia.
  - split; [constructor|split; [cbn; lia|reflexivity]].
Qed.

Lemma subSteps_sounds (n : nat) (dt r : num) :
  forall st : SimState num,
  let st' := subSteps config globalSettings n dt r st in
  exists new,
    played st' = played st ++ new
    /\ Forall (fun force => nlt (lit 1) force = true) new
    /\ (collisionCount st + List.length new <= collisionCount st')%nat
    /\ (enableAudio globalSettings = false -> new = []).
Proof.
  induction n as [|n IH]; intros st.
  - exists []. cbn [subSteps List.length]. rewrite app_nil_r.
    repeat split; auto. lia.
  - cbn [subSteps].
    match goal with
    | |- context [runPhysicsStep _ _ dt r ?vs ?s0] =>
        destruct (runPhysicsStep_sounds dt r vs s0) as [n1 [P1 [F1 [C1 A1]]]];
        destruct (IH (runPhysicsStep config globalSettings dt r vs s0))
          as [n2 [P2 [F2 [C2 A2]]]]
    end.
    cbn [played collisionCount] in P1, C1.
    exists (n1 ++ n2). cbv zeta. rewrite P2, P1, app_assoc, length_app.
    repeat split.
    + apply Forall_app. now split.
    + lia.
    + intros E. now rewrite (A1 E), (A2 E).
Qed.

Lemma tick_played (cv : option CanvasEl) (st : SimState num) :
  exists r, played (fst (tick config globalSettings cv st))
            = played (advance config globalSettings r st)
  \/ played (fst (tick config globalSettings cv st)) = played st.
Proof.
  destruct cv as [c|]; [destruct (visible c) eqn:V|].
  - exists (shapeRadiusOf c). left.
    rewrite (tick_visible config globalSettings c st V). cbn [fst].
    unfold telemetry.
    match goal with |- context [if ?c then _ else _] => destruct c end; reflexivity.
  - exists (lit 0). right. now rewrite tick_hidden.
  - exists (lit 0). right. now rewrite tick_hidden.
Qed.

(** X9: the sounds.  The physics of one frame only appends to the sounds
    played; every sound has an impact force above 1; no more sounds are added
    than collisions are counted; and with the audio switched off no run of
    frames plays anything. *)
Theorem sounds_played :
  (forall (r : num) (st : SimState num),
      let st' := advance config globalSettings r st in
      exists new,
        played st' = played st ++ new
        /\ Forall (fun force => nlt (lit 1) force = true) new
        /\ (collisionCount st + List.length new <= collisionCount st')%nat
        /\ (enableAudio globalSettings = false -> new = []))
  /\ (forall (cvs : list (option CanvasEl)) (st : SimState num),
      exists new,
        played (fst (frames config globalSettings cvs st)) = played st ++ new
        /\ Forall (fun force => nlt (lit 1) force = true) new
        /\ (enableAudio globalSettings = false -> new = [])).
Proof.
  assert (A : forall (r : num) (st : SimState num),
      let st' := advance config globalSettings r st in
      exists new,
        played st' = played st ++ new
        /\ Forall (fun force => nlt (lit 1) force = true) new
        /\ (collisionCount st + List.length new <= collisionCount st')%nat
        /\ (enableAudio globalSettings = false -> new = [])).
  { intros r st. unfold advance. destruct (nlt _ _).
    - apply subSteps_sounds.
    - exists []. cbn [List.length]. rewrite app_nil_r. repeat split; auto. lia. }
  split; [exact A|].
  induction cvs as [|cv cvs IH]; intros st.
  - exists []. cbn [frames fst]. rewrite app_nil_r. auto.
  - rewrite frames_cons. cbn [fst].
    destruct (IH (fst (tick config globalSettings cv st))) as [n2 [P2 [F2 A2]]].
    destruct (tick_played cv st) as [r [E|E]].
    + destruct (A r st) as [n1 [P1 [F1 [_ A1]]]]. cbv zeta in P1.
      exists (n1 ++ n2). rewrite P2, E, P1, app_assoc. repeat split.
      * apply Forall_app. now split.
      * intros Q. now rewrite (A1 Q), (A2 Q).
    + exists n2. rewrite P2, E. auto.
Qed.

End Sounds.

Section Rendered.

Local Open Scope R_scope.



Lemma Rfloor_le (r : R) : Rfloor r <= r.
Proof. unfold Rfloor. destruct (base_Int_part r). lra. Qed.

Lemma Rfloor_ge (n : Z) (r : R) : IZR n <= r -> IZR n <= Rfloor r.
Proof.
  intros L. unfold Rfloor. destruct (base_Int_part r) as [_ G].
  apply IZR_le. apply Z.lt_succ_r. apply lt_IZR. rewrite succ_IZR. lra.
Qed.

Lemma Rfloor_int (n : Z) : Rfloor (IZR n) = IZR n.
Proof.
  apply Rle_antisym; [apply Rfloor_le | apply Rfloor_ge; lra].
Qed.

(** X11: the colour a particle is filled with.  Without the heat map it is
    white.  With the heat map the red channel is a whole number from 100 to
    255 and the green and blue channels are the same whole number from 0 to
    40; a particle at rest gets [(100, 40, 40)] and one at a speed of 15 or
    more gets [(255, 0, 0)]. *)
Theorem heatmap_colour (ball : Ball R) :
  fillStyle false ball = (255, 255, 255)
  /\ (exists r g : Z,
        fillStyle true ball = (IZR r, IZR g, IZR g)
        /\ (100 <= r <= 255)%Z /\ (0 <= g <= 40)%Z)
  /\ (vel ball = origin -> fillStyle true ball = (100, 40, 40))
  /\ (15 <= mag (vel ball) -> fillStyle true ball = (255, 0, 0)).
Proof.
  unfold fillStyle, getHeatmapColor.
  cbn [lit nadd nsub nmul ndiv Math_min Math_floor RNum RRound].
  pose proof (mag_nonneg (vel ball)) as P.
  set (s := mag (vel ball)) in *.
  assert (Z0 : vel ball = origin -> s = 0).
  { intros E. subst s. rewrite E. apply mag_value; [lra|]. cbn. ring. }
  clearbody s.
  split; [reflexivity|]. split; [|split].
  - assert (Q : 0 <= Rmin (s / 15) 1 <= 1).
    { unfold Rmin. destruct (Rle_dec (s / 15) 1); lra. }
    set (q := Rmin (s / 15) 1) in *. clearbody q.
    exists (Int_part (100 + 155 * q)), (Int_part (40 * (1 - q))).
    split; [reflexivity|].
    pose proof (Rfloor_le (100 + 155 * q)) as A1.
    pose proof (@Rfloor_ge 100 (100 + 155 * q)) as A2.
    pose proof (Rfloor_le (40 * (1 - q))) as B1.
    pose proof (@Rfloor_ge 0 (40 * (1 - q))) as B2.
    unfold Rfloor in *.
    assert (A3 : 100 <= IZR (Int_part (100 + 155 * q))) by (apply A2; lra).
    assert (B3 : 0 <= IZR (Int_part (40 * (1 - q)))) by (apply B2; nra).
    repeat split; apply le_IZR; lra.
  - intros E. rewrite (Z0 E).
    replace (Rmin (0 / 15) 1) with 0
      by (unfold Rmin; destruct (Rle_dec (0 / 15) 1); lra).
    replace (100 + 155 * 0) with 100 by ring.
    replace (40 * (1 - 0)) with 40 by ring.
    now rewrite !Rfloor_int.
  - intros F.
    replace (Rmin (s / 15) 1) with 1
      by (unfold Rmin; destruct (Rle_dec (s / 15) 1); lra).
    replace (100 + 155 * 1) with 255 by ring.
    replace (40 * (1 - 1)) with 0 by ring.
    now rewrite !Rfloor_int.
Qed.

End Rendered.

(** ** Runs of frames *)

Section Runs.

Context {num : Type} `{JSNumber num} `{JSMath num}.
Variable config : SimulationConfig num.
Variable globalSettings : GlobalSettings num.

Lemma drawable_shown (cv : option CanvasEl) : drawable cv = true <-> shown cv.
Proof.
  split.
  - destruct cv as [c|]; [|discriminate]. intros V. now exists c.
  - intros [c [-> V]]. exact V.
Qed.

(** The calls made by a run of drawn frames. *)
Lemma drawn_frames_emissions (cvs : list (option CanvasEl)) :
  forall st : SimState num,
  Forall shown cvs -> (statsTick st < 20)%nat ->
  List.length (emissions (snd (frames config globalSettings cvs st)))
  = ((statsTick st + List.length cvs) / 20)%nat.
Proof.
  induction cvs as [|cv cvs IH]; intros st A L.
  - cbn [frames fst snd emissions flat_map List.length].
    rewrite Nat.add_0_r, Nat.div_small by lia. reflexivity.
  - inversion A as [|? ? [c [-> V]] A']; subst.
    rewrite frames_cons. cbn [fst snd emissions flat_map].
    pose proof (tick_window config globalSettings c st V L) as W. cbv zeta in W.
    set (t1 := tick config globalSettings (Some c) st) in *.
    fold (emissions (snd (frames config globalSettings cvs (fst t1)))).
    rewrite length_app.
    destruct (statsTick st =? 19)%nat eqn:E.
    + apply Nat.eqb_eq in E. destruct W as [O [_ [_ S0]]].
      destruct (snd t1) as [fr|]; [|discriminate]. cbn in O. injection O as O.
      rewrite O. cbn [List.length].
      rewrite IH by (trivial; lia). rewrite S0, E.
      replace (19 + S (List.length cvs))%nat with (List.length cvs + 1 * 20)%nat by lia.
      rewrite Nat.div_add by lia. cbn [Nat.add]. lia.
    + apply Nat.eqb_neq in E. destruct W as [O [_ [_ S1]]].
      destruct (snd t1) as [fr|]; [|discriminate]. cbn in O. injection O as O.
      rewrite O. cbn [List.length].
      rewrite IH by (trivial; lia). rewrite S1. cbn [Nat.add].
      f_equal. lia.
Qed.

(** X12: frames that return early are as good as absent.  A run of frames
    ends in the state, and makes the calls of [onStatsUpdate], of the run of
    its drawn frames alone; so the number of calls is the number of drawn
    frames, counted from the position in the window, divided by 20. *)
Theorem hidden_frames_skipped (cvs : list (option CanvasEl)) (st : SimState num) :
  (statsTick st < 20)%nat ->
  let shownOnly := filter drawable cvs in
  fst (frames config globalSettings cvs st)
  = fst (frames config globalSettings shownOnly st)
  /\ emissions (snd (frames config globalSettings cvs st))
     = emissions (snd (frames config globalSettings shownOnly st))
  /\ List.length (emissions (snd (frames config globalSettings cvs st)))
     = ((statsTick st + List.length shownOnly) / 20)%nat.
Proof.
  intros L shownOnly.
  assert (E : fst (frames config globalSettings cvs st)
              = fst (frames config globalSettings shownOnly st)
              /\ emissions (snd (frames config globalSettings cvs st))
                 = emissions (snd (frames config globalSettings shownOnly st))).
  { subst shownOnly. clear L. revert st.
    induction cvs as [|cv cvs IH]; intros st; [now split|].
    cbn [filter]. destruct (drawable cv) eqn:D.
    - rewrite !frames_cons. cbn [fst snd emissions flat_map].
      destruct (IH (fst (tick config globalSettings cv st))) as [A B].
      split; [exact A|].
      fold (emissions (snd (frames config globalSettings cvs
                              (fst (tick config globalSettings cv st))))).
      fold (emissions (snd (frames config globalSettings (filter drawable cvs)
                              (fst (tick config globalSettings cv st))))).
      now rewrite B.
    - rewrite frames_cons. cbn [fst snd emissions flat_map].
      assert (T : tick config globalSettings cv st = (st, None)).
      { apply tick_hidden. destruct cv as [c|]; trivial. }
      rewrite T. cbn [fst snd app]. apply IH. }
  destruct E as [E1 E2]. repeat split; trivial.
  rewrite E2.
  assert (S : Forall shown shownOnly).
  { apply Forall_forall. intros cv Hc. apply filter_In in Hc as [_ D].
    now apply drawable_shown. }
  now apply drawn_frames_emissions.
Qed.

Lemma identity_inert (bs bs' : list (Ball num)) :
  map inert bs' = map inert bs -> map identity bs' = map identity bs.
Proof.
  intros E.
  assert (G : forall l : list (Ball num),
             map identity l
             = map (fun t : num * nat * Vector2 num * num * string * list (Vector2 num) =>
                      let '(i, a, r, c, _) := t in (i, r, c, a))
                   (map inert l)).
  { intros l. rewrite map_map. apply map_ext. reflexivity. }
  now rewrite (G bs), (G bs'), E.
Qed.

Lemma tick_identity (cv : option CanvasEl) (st : SimState num) :
  map identity (balls (fst (tick config globalSettings cv st)))
  = map identity (balls st).
Proof.
  destruct cv as [c|]; [destruct (visible c) eqn:V|].
  - rewrite tick_balls by trivial. rewrite map_map.
    destruct (advance_frame config globalSettings (shapeRadiusOf c) st)
      as [_ [_ [_ [_ I]]]].
    rewrite <- (identity_inert _ _ I). apply map_ext. reflexivity.
  - now rewrite tick_hidden.
  - now rewrite tick_hidden.
Qed.

(** X13: the particles of a simulation keep their identity.  Whatever the
    frames, no particle is added or removed, and every particle keeps its id,
    its radius, its colour and its (zero) acceleration, in the same place of
    the list. *)
Theorem particles_keep_identity (cvs : list (option CanvasEl)) (st : SimState num) :
  map identity (balls (fst (frames config globalSettings cvs st)))
  = map identity (balls st)
  /\ List.length (balls (fst (frames config globalSettings cvs st)))
     = List.length (balls st).
Proof.
  assert (E : map identity (balls (fst (frames config globalSettings cvs st)))
              = map identity (balls st)).
  { revert st. induction cvs as [|cv cvs IH]; intros st; trivial.
    rewrite frames_cons. cbn [fst]. rewrite IH. apply tick_identity. }
  split; trivial.
  apply (f_equal (@List.length _)) in E. now rewrite !length_map in E.
Qed.

(** Drawing does not change the kinetic energy. *)
Lemma frameKe_drawn (c : Vector2 num) (bs : list (Ball num)) :
  frameKe (map (drawBall globalSettings c) bs) = frameKe bs.
Proof.
  unfold frameKe. generalize (lit 0 : num).
  induction bs as [|b bs IH]; intros a; cbn [map fold_left]; trivial.
Qed.

End Runs.

Section RealRuns.

Local Open Scope R_scope.
Variable config : SimulationConfig R.
Variable globalSettings : GlobalSettings R.

(** The sum of [frameKe] started from any value. *)
Lemma frameKe_from (bs : list (Ball R)) :
  forall a : R,
  fold_left (fun ke ball => nadd ke (nmul (nmul (dec 1 2) (mag (vel ball))) (mag (vel ball))))
            bs a
  = a + fold_right (fun b s => (x (vel b) * x (vel b) + y (vel b) * y (vel b)) / 2 + s) 0 bs.
Proof.
  induction bs as [|b bs IH]; intros a; cbn [fold_left fold_right].
  - ring.
  - rewrite IH. pose proof (mag_sqr (vel b)) as M.
    unfold dec. cbn [lit nadd nmul ndiv RNum].
    replace (1 / 2 * mag (vel b) * mag (vel b)) with ((mag (vel b) * mag (vel b)) / 2)
      by field.
    rewrite M. ring.
Qed.

(** X14: the kinetic energy of a frame is half the sum of the squared
    velocity components, the square root taken for the speed cancelling; it
    is never negative, and it is zero exactly when every particle is at
    rest. *)
Theorem frame_kinetic_energy (bs : list (Ball R)) :
  frameKe bs
  = fold_right (fun b s => (x (vel b) * x (vel b) + y (vel b) * y (vel b)) / 2 + s) 0 bs
  /\ 0 <= frameKe bs
  /\ (frameKe bs = 0 <-> Forall (fun b => vel b = origin) bs).
Proof.
  assert (E : frameKe bs
    = fold_right (fun b s => (x (vel b) * x (vel b) + y (vel b) * y (vel b)) / 2 + s) 0 bs).
  { unfold frameKe. rewrite frameKe_from. cbn [lit RNum]. ring. }
  rewrite E. clear E. split; [reflexivity|].
  induction bs as [|b bs [P Q]]; cbn [fold_right].
  - split; [lra|]. split; [constructor | reflexivity].
  - set (s := fold_right _ 0 bs) in *. clearbody s.
    split; [nra|]. split.
    + intros Z.
      assert (X0 : x (vel b) * x (vel b) + y (vel b) * y (vel b) = 0) by nra.
      constructor.
      * apply vec_eq; cbn [x y origin lit RNum]; nra.
      * apply Q. nra.
    + intros F. inversion F as [|? ? V F']; subst.
      rewrite V. cbn [x y origin lit RNum].
      apply Q in F'. lra.
Qed.

(** A paused window, [k] frames in. *)
Lemma paused_window_rest (cvs : list (option CanvasEl)) :
  timeScale globalSettings <= 0 ->
  forall st : SimState R,
  Forall shown cvs -> balls st <> [] ->
  (statsTick st < 20)%nat -> List.length cvs = (20 - statsTick st)%nat ->
  totalKe st = INR (statsTick st) * frameKe (balls st) ->
  emissions (snd (frames config globalSettings cvs st))
  = [(frameKe (balls st) / INR (List.length (balls st)), collisionCount st)].
Proof.
  intros Z0.
  assert (Z : nlt (lit 0) (timeScale globalSettings) = false)
    by (apply Rltb_false; exact Z0).
  clear Z0.
  induction cvs as [|cv cvs IH]; intros st A N L Len T.
  - cbn [List.length] in Len. lia.
  - inversion A as [|? ? [c [-> V]] A']; subst.
    rewrite frames_cons. cbn [fst snd emissions flat_map].
    pose proof (tick_window config globalSettings c st V L) as W. cbv zeta in W.
    pose proof (tick_balls config globalSettings c st V) as B.
    rewrite (advance_paused config globalSettings (shapeRadiusOf c) st Z) in W, B.
    set (t1 := tick config globalSettings (Some c) st) in *.
    fold (emissions (snd (frames config globalSettings cvs (fst t1)))).
    assert (P : 0 < INR (List.length (balls st))).
    { apply lt_0_INR. destruct (balls st); [congruence | cbn; lia]. }
    destruct (statsTick st =? 19)%nat eqn:E.
    + apply Nat.eqb_eq in E. destruct W as [O _].
      destruct (snd t1) as [fr|]; [|discriminate]. cbn in O. injection O as O.
      rewrite O.
      assert (C0 : cvs = []).
      { destruct cvs; trivial. cbn [List.length] in Len. lia. }
      rewrite C0. cbn [frames snd emissions flat_map app].
      f_equal. f_equal. rewrite T, E, <- INR_IZR_INZ.
      replace (INR 19) with 19 by (cbn; ring).
      field. lra.
    + apply Nat.eqb_neq in E. destruct W as [O [T1 [C1 S1]]].
      destruct (snd t1) as [fr|]; [|discriminate]. cbn in O. injection O as O.
      rewrite O. cbn [app].
      assert (F1 : frameKe (balls (fst t1)) = frameKe (balls st))
        by (rewrite B; apply frameKe_drawn).
      assert (L1 : List.length (balls (fst t1)) = List.length (balls st))
        by (rewrite B; apply length_map).
      rewrite (IH (fst t1)); trivial.
      * now rewrite F1, L1, C1.
      * rewrite B. destruct (balls st); [congruence | discriminate].
      * lia.
      * cbn [List.length] in Len. lia.
      * rewrite T1, S1, F1, T, S_INR. cbn [nadd RNum]. ring.
Qed.

(** X15: the read-out of a paused simulation.  Twenty drawn frames at a time
    scale of zero, started on a fresh window with at least one particle, make
    one call of [onStatsUpdate]: with the mean kinetic energy per particle,
    and with the collision counter as it stood. *)
Theorem paused_window_reports_mean (cvs : list (option CanvasEl)) (st : SimState R) :
  timeScale globalSettings <= 0 ->
  Forall shown cvs -> List.length cvs = 20%nat ->
  balls st <> [] -> statsTick st = 0%nat -> totalKe st = 0 ->
  emissions (snd (frames config globalSettings cvs st))
  = [(frameKe (balls st) / INR (List.length (balls st)), collisionCount st)].
Proof.
  intros Z A Len N S0 T0.
  apply paused_window_rest; trivial.
  - lia.
  - rewrite S0. exact Len.
  - rewrite S0, T0. cbn. ring.
Qed.

End RealRuns.

Section RunsWitnesses.

Local Open Scope R_scope.

Lemma hidden_frames_skipped_witness :
  fst (frames labConfig labSettings [None; Some labCanvas; None] twoBalls)
  = fst (frames labConfig labSettings [Some labCanvas] twoBalls)
  /\ emissions (snd (frames labConfig labSettings [None; Some labCanvas; None] twoBalls))
     = emissions (snd (frames labConfig labSettings [Some labCanvas] twoBalls)).
Proof.
  destruct (@hidden_frames_skipped R _ _ labConfig labSettings
              [None; Some labCanvas; None] twoBalls) as [A [B _]].
  - cbn. lia.
  - split; [exact A | exact B].
Defined.

Lemma paused_window_reports_mean_witness :
  emissions (snd (frames labConfig pausedSettings (repeat (Some labCanvas) 20) twoBalls))
  = [(frameKe (balls twoBalls) / INR (List.length (balls twoBalls)),
      collisionCount twoBalls)].
Proof.
  apply (@paused_window_reports_mean labConfig pausedSettings
           (repeat (Some labCanvas) 20) twoBalls).
  - cbn. lra.
  - apply Forall_forall. intros cv Hc. apply repeat_spec in Hc. subst cv.
    exists labCanvas. split; reflexivity.
  - reflexivity.
  - discriminate.
  - reflexivity.
  - reflexivity.
Defined.

End RunsWitnesses.

(** ** The card and the header *)

Section CardHistory.

Import SimulationCard.

Context {num : Type} `{JSNumber num} `{JSRound num}.

Lemma slice_last_short (A : Type) (n : nat) (l : list A) :
  (List.length l <= n)%nat -> slice_last n l = l.
Proof.
  intros L. unfold slice_last.
  replace (List.length l - n)%nat with 0%nat by lia. reflexivity.
Qed.

Lemma slice_last_length (A : Type) (n : nat) (l : list A) :
  List.length (slice_last n l) = Nat.min n (List.length l).
Proof. unfold slice_last. rewrite length_skipn. lia. Qed.

(** Slicing after every push is slicing once at the end. *)
Lemma slice_last_push (A : Type) (n : nat) (l : list A) (a : A) :
  slice_last (S n) (slice_last (S n) l ++ [a]) = slice_last (S n) (l ++ [a]).
Proof.
  destruct (Nat.le_gt_cases (List.length l) (S n)) as [L|G].
  - now rewrite (slice_last_short l L).
  - unfold slice_last at 1 3. rewrite !length_app, slice_last_length.
    cbn [List.length]. rewrite !skipn_app.
    unfold slice_last. rewrite skipn_skipn, length_skipn.
    replace (Nat.min (S n) (List.length l) + 1 - S n)%nat with 1%nat by lia.
    replace (1 + (List.length l - S n))%nat with (List.length l + 1 - S n)%nat by lia.
    f_equal.
    replace (1 - (List.length l - (List.length l - S n)))%nat with 0%nat by lia.
    replace (List.length l + 1 - S n - List.length l)%nat with 0%nat by lia.
    reflexivity.
Qed.

Lemma slice_last_inner (A : Type) (n : nat) (l ks : list A) :
  slice_last (S n) (slice_last (S n) l ++ ks) = slice_last (S n) (l ++ ks).
Proof.
  induction ks as [|k ks IH] using rev_ind.
  - rewrite !app_nil_r. apply slice_last_short. rewrite slice_last_length. lia.
  - rewrite !app_assoc.
    rewrite <- (slice_last_push n (slice_last (S n) l ++ ks) k), IH.
    apply slice_last_push.
Qed.

Lemma feed_cons (s : CardState num) (c : num * nat) (calls : list (num * nat)) :
  feed s (c :: calls) = feed (handleStats s (fst c) (snd c)) calls.
Proof. reflexivity. Qed.

Lemma feed_history (calls : list (num * nat)) :
  forall s : CardState num,
  (List.length (keHistory s) <= 100)%nat ->
  keHistory (feed s calls) = slice_last 100 (keHistory s ++ map fst calls).
Proof.
  induction calls as [|c calls IH]; intros s L.
  - cbn [feed fold_left map]. rewrite app_nil_r. symmetry. now apply slice_last_short.
  - rewrite feed_cons, IH.
    + cbn [handleStats keHistory map].
      rewrite (slice_last_inner 99).
      now rewrite <- app_assoc.
    + cbn [handleStats keHistory]. rewrite slice_last_length. lia.
Qed.

(** X16: the history of the card.  A card whose history holds at most 100
    readings, fed with any calls of [onStatsUpdate], holds the last 100 of
    the old readings followed by the new ones, oldest first, so never more
    than 100; and it shows the latest call. *)
Theorem card_history (s : CardState num) (calls : list (num * nat)) :
  (List.length (keHistory s) <= 100)%nat ->
  keHistory (feed s calls) = slice_last 100 (keHistory s ++ map fst calls)
  /\ List.length (keHistory (feed s calls))
     = Nat.min 100 (List.length (keHistory s) + List.length calls)
  /\ (forall c, telemetry (feed s (calls ++ [c]))
                = {| ke := fst c; collisions := snd c |}).
Proof.
  intros L. rewrite (feed_history calls s L).
  split; [reflexivity|]. split.
  - now rewrite slice_last_length, length_app, length_map.
  - intros c. unfold feed. rewrite fold_left_app. reflexivity.
Qed.

(** X17: the card behind a canvas.  Fed with the calls made by a run of [n]
    drawn frames that starts [t] frames into the window, a fresh card holds
    [(t + n) / 20] readings, or 100 once there have been more. *)
Theorem card_follows_canvas `{JSMath num} (config : SimulationConfig num)
    (globalSettings : GlobalSettings num)
    (cvs : list (option CanvasEl)) (st : SimState num) :
  Forall shown cvs -> (statsTick st < 20)%nat ->
  List.length (keHistory (feed initialCard
                            (emissions (snd (frames config globalSettings cvs st)))))
  = Nat.min 100 ((statsTick st + List.length cvs) / 20).
Proof.
  intros A L. rewrite feed_history by (cbn; lia).
  rewrite slice_last_length. cbn [initialCard keHistory app].
  now rewrite length_map, drawn_frames_emissions.
Qed.

End CardHistory.

Section Sparkline.

Import SimulationCard.
Local Open Scope R_scope.

Lemma maxKe_bounds (hist : list R) :
  50 <= fold_right Rmax 50 hist
  /\ Forall (fun v => v <= fold_right Rmax 50 hist) hist.
Proof.
  induction hist as [|v hist [B F]]; cbn [fold_right].
  - split; [lra | constructor].
  - split.
    + apply Rle_trans with (fold_right Rmax 50 hist); [exact B | apply Rmax_r].
    + constructor; [apply Rmax_l|].
      apply Forall_impl with (2 := F). intros a Ha.
      apply Rle_trans with (fold_right Rmax 50 hist); [exact Ha | apply Rmax_r].
Qed.

Lemma map_fst_combine (A B : Type) (l : list A) :
  forall l' : list B,
  List.length l = List.length l' -> map fst (combine l l') = l.
Proof.
  induction l as [|a l IH]; intros [|b l'] E; try discriminate; trivial.
  cbn [combine map fst]. f_equal. apply IH. now injection E.
Qed.

(** X18: the sparkline of the focused card.  With two to 100 readings, none
    negative, the polyline has one point per reading, every point lies on
    the canvas, and the horizontal positions are [i / 99] of the width. *)
Theorem sparkline_on_canvas (w h : nat) (hist : list R) :
  (1 < List.length hist <= 100)%nat ->
  Forall (fun v => 0 <= v) hist ->
  exists pts,
    sparkline (Some (w, h)) hist = Some pts
    /\ List.length pts = List.length hist
    /\ map fst pts = map (fun i => INR i / 99 * INR w) (seq 0 (List.length hist))
    /\ Forall (fun p => 0 <= fst p <= INR w /\ 0 <= snd p <= INR h) pts.
Proof.
  intros [L1 L2] P. unfold sparkline.
  replace (1 <? List.length hist)%nat with true
    by (symmetry; apply Nat.ltb_lt; exact L1).
  eexists. split; [reflexivity|].
  cbn [lit nsub nmul ndiv Math_max RNum RRound].
  destruct (maxKe_bounds hist) as [B F].
  set (m := fold_right Rmax 50 hist) in *. clearbody m.
  pose proof (pos_INR w) as W. pose proof (pos_INR h) as Hh.
  split; [|split].
  - now rewrite length_map, length_combine, length_seq, Nat.min_id.
  - rewrite map_map. cbn [fst].
    rewrite <- (map_map fst (fun i => of_nat i / 99 * of_nat w)).
    rewrite map_fst_combine by (now rewrite length_seq).
    apply map_ext. intros i. now rewrite !of_nat_INR.
  - apply Forall_forall. intros p Hp.
    apply in_map_iff in Hp as [[i v] [<- Hin]]. cbn [fst snd].
    pose proof (in_combine_l _ _ _ _ Hin) as Hi.
    pose proof (in_combine_r _ _ _ _ Hin) as Hv.
    apply in_seq in Hi.
    rewrite Forall_forall in P, F.
    specialize (P v Hv). specialize (F v Hv).
    rewrite !of_nat_INR.
    assert (I0 : 0 <= INR i) by apply pos_INR.
    assert (I1 : INR i <= 99).
    { replace 99 with (INR 99) by (rewrite INR_IZR_INZ; reflexivity).
      apply le_INR. lia. }
    assert (Q0 : 0 <= v / m).
    { unfold Rdiv. apply Rmult_le_pos; [lra|].
      left. apply Rinv_0_lt_compat. lra. }
    assert (Q1 : v / m <= 1).
    { apply Rmult_le_reg_r with m; [lra|].
      replace (v / m * m) with v by (field; lra). lra. }
    assert (X0 : 0 <= INR i / 99 <= 1) by lra.
    repeat split; nra.
Qed.

End Sparkline.

Section Controls.

Import App.

Context {num : Type} `{JSNumber num}.

Lemma act_keeps (s : AppState num) (a : Action num) :
  let p := settings s in
  let q := settings (act s a) in
  precision q = precision p /\ rotationMultiplier q = rotationMultiplier p
  /\ bouncinessMultiplier q = bouncinessMultiplier p
  /\ showVectors q = showVectors p /\ showTrails q = showTrails p.
Proof. destruct a; cbn; auto. Qed.

(** X19: what the header cannot change.  After any sequence of its controls
    (play and pause, the environment presets, the three sliders and the two
    toggles), every card still runs with 4 sub-steps per frame, with rotation
    and bounciness multipliers of 1, with trails and without velocity
    vectors. *)
Theorem controls_keep_defaults (actions : list (Action num)) :
  let g := cardSettings (fold_left act actions initialApp) in
  precision g = 4%nat /\ rotationMultiplier g = lit 1
  /\ bouncinessMultiplier g = lit 1
  /\ showVectors g = false /\ showTrails g = true.
Proof.
  cbv zeta.
  assert (G : forall s : AppState num,
             let p := settings s in
             let q := settings (fold_left act actions s) in
             precision q = precision p /\ rotationMultiplier q = rotationMultiplier p
             /\ bouncinessMultiplier q = bouncinessMultiplier p
             /\ showVectors q = showVectors p /\ showTrails q = showTrails p).
  { induction actions as [|a actions IH]; intros s; cbn [fold_left].
    - cbv zeta. auto.
    - destruct (IH (act s a)) as [A1 [A2 [A3 [A4 A5]]]].
      destruct (act_keeps s a) as [B1 [B2 [B3 [B4 B5]]]].
      cbv zeta. repeat split; congruence. }
  destruct (G initialApp) as [A1 [A2 [A3 [A4 A5]]]].
  unfold cardSettings.
  cbn [precision rotationMultiplier bouncinessMultiplier showVectors showTrails].
  rewrite A1, A2, A3, A4, A5. cbn. auto.
Qed.

End Controls.

Section PauseResume.

Import App.
Local Open Scope R_scope.

(** X20: pause and resume.  While [App] is paused, no frame of any card moves
    a particle or changes its velocity, also after the time slider has been
    moved; resuming hands the cards the slider's value; and pausing then
    resuming brings [App] back to where it was. *)
Theorem pause_and_resume (s : AppState R) (v : R) :
  isPlaying s = true ->
  let paused := togglePlay s in
  (forall (g : GlobalSettings R),
      g = cardSettings paused \/ g = cardSettings (setTimeScale v paused) ->
      forall (config : SimulationConfig R) (cvs : list (option CanvasEl)) (st : SimState R),
        let st' := fst (frames config g cvs st) in
        map pos (balls st') = map pos (balls st)
        /\ map vel (balls st') = map vel (balls st))
  /\ timeScale (cardSettings (togglePlay (setTimeScale v paused))) = v
  /\ togglePlay paused = s.
Proof.
  intros P paused. subst paused. split; [|split].
  - intros g G config cvs st.
    apply frames_paused_balls.
    destruct G as [-> | ->]; unfold cardSettings, currentSpeed; cbn; rewrite P; cbn;
      apply Rltb_false; lra.
  - unfold cardSettings, currentSpeed. cbn. rewrite P. reflexivity.
  - destruct s as [g p f]. cbn in P. subst p. reflexivity.
Qed.

End PauseResume.

Section CardWitnesses.

Import SimulationCard App.
Local Open Scope R_scope.

Lemma card_history_witness :
  keHistory (feed (@initialCard R _) [(3, 1%nat); (4, 2%nat)]) = [3; 4].
Proof.
  destruct (@card_history R (@initialCard R _) [(3, 1%nat); (4, 2%nat)]) as [A _].
  - cbn. lia.
  - exact A.
Defined.

Lemma card_follows_canvas_witness :
  List.length (keHistory (feed initialCard
     (emissions (snd (frames labConfig labSettings [Some labCanvas] twoBalls)))))
  = Nat.min 100 ((statsTick twoBalls + 1) / 20).
Proof.
  apply (@card_follows_canvas R _ _ labConfig labSettings [Some labCanvas] twoBalls).
  - constructor; [|constructor]. exists labCanvas. split; reflexivity.
  - cbn. lia.
Defined.

Lemma sparkline_on_canvas_witness :
  exists pts,
    sparkline (Some (120%nat, 18%nat)) [10; 60] = Some pts
    /\ List.length pts = 2%nat.
Proof.
  destruct (@sparkline_on_canvas 120 18 [10; 60]) as [pts [A [B _]]].
  - cbn. lia.
  - repeat constructor; lra.
  - exists pts. split; assumption.
Defined.

Lemma pause_and_resume_witness :
  timeScale (cardSettings (togglePlay (setTimeScale 2 (togglePlay (@initialApp R _))))) = 2
  /\ togglePlay (togglePlay (@initialApp R _)) = @initialApp R _.
Proof.
  destruct (@pause_and_resume (@initialApp R _) 2) as [_ [A B]].
  - reflexivity.
  - split; [exact A | exact B].
Defined.

End CardWitnesses.

(** ** Momentum over a whole step *)

Section StepMomentum.

Local Open Scope R_scope.
Variable config : SimulationConfig R.
Variable globalSettings : GlobalSettings R.

(** The total momentum after the forces, without a pointer. *)
Lemma momentum_forces (dt : R) (bs : list (Ball R)) :
  momentum (map (applyForces config globalSettings dt None) bs)
  = mult (add (momentum bs)
              (mult {| x := gravityX config globalSettings;
                       y := gravityY config globalSettings |}
                    (INR (List.length bs) * dt)))
         (Math_pow (1 - (viscosity globalSettings + friction config)) dt).
Proof.
  induction bs as [|b bs IH].
  - cbn [map momentum fold_right List.length INR].
    apply vec_eq; cbn [x y add mult origin lit nadd nmul RNum]; ring.
  - cbn [map List.length]. rewrite S_INR.
    unfold momentum in *. cbn [fold_right]. rewrite IH.
    rewrite applyForces_no_pointer. unfold kick.
    apply vec_eq; cbn [x y add mult lit nadd nsub nmul RNum]; ring.
Qed.

(** X21: momentum in free space.  Without a pointer, and as long as no
    particle reaches an edge, a physics step takes the total momentum [P] of
    [n] particles to [(P + n g dt) * drag ^ dt], with [g] the gravity vector:
    collisions between particles, however many overlap, do not change it. *)
Theorem free_space_momentum (dt r : R) (vs : list (Vector2 R)) (st : SimState R) :
  mousePos st = None ->
  Forall (clearOfWalls vs) (map (applyForces config globalSettings dt None) (balls st)) ->
  momentum (balls (runPhysicsStep config globalSettings dt r vs st))
  = mult (add (momentum (balls st))
              (mult {| x := gravityX config globalSettings;
                       y := gravityY config globalSettings |}
                    (INR (List.length (balls st)) * dt)))
         (Math_pow (1 - (viscosity globalSettings + friction config)) dt).
Proof.
  intros M W. unfold runPhysicsStep. rewrite M.
  set (f := fun ball => boundCollisions config globalSettings vs
              (applyForces config globalSettings dt None ball)).
  pose proof (forEach_fst f (balls st)) as F1.
  assert (E1 : fst (forEach f (balls st))
               = map (applyForces config globalSettings dt None) (balls st)).
  { rewrite F1. apply map_ext_in. intros b Hb. unfold f.
    rewrite boundCollisions_clear; trivial.
    rewrite Forall_forall in W. apply W. now apply in_map. }
  destruct (forEach f (balls st)) as [bs1 h1]. cbn [fst] in E1. subst bs1.
  pose proof (pairCollisions_momentum config globalSettings
                (map (applyForces config globalSettings dt None) (balls st))) as P.
  destruct (pairCollisions config globalSettings _) as [bs2 h2].
  cbn [fst] in P. cbn [balls]. rewrite P. apply momentum_forces.
Qed.

End StepMomentum.

Section StepMomentumWitness.

Local Open Scope R_scope.

Lemma twoBalls_clear :
  Forall (clearOfWalls squareChamber)
         (map (applyForces labConfig labSettings (1 / 4) None) (balls twoBalls)).
Proof.
  assert (D : 0 <= 1 / 4 <= 1) by lra.
  cbn [balls twoBalls map].
  apply Forall_cons; [|apply Forall_cons; [|apply Forall_nil]].
  - apply squareChamber_far with (bound := 0 + 2); [lra|].
    apply drift_applyForces; trivial. unfold drifting. cbn. lra.
  - apply squareChamber_far with (bound := 50 + 2); [lra|].
    apply drift_applyForces; trivial. unfold drifting. cbn. lra.
Qed.

Lemma free_space_momentum_witness :
  momentum (balls (runPhysicsStep labConfig labSettings (1 / 4) 176 squareChamber twoBalls))
  = mult (add (momentum (balls twoBalls))
              (mult {| x := gravityX labConfig labSettings;
                       y := gravityY labConfig labSettings |}
                    (INR (List.length (balls twoBalls)) * (1 / 4))))
         (Math_pow (1 - (viscosity labSettings + friction labConfig)) (1 / 4)).
Proof.
  apply (@free_space_momentum labConfig labSettings (1 / 4) 176 squareChamber twoBalls).
  - reflexivity.
  - exact twoBalls_clear.
Defined.

End StepMomentumWitness.

(** ** Re-initialisation, the canvas and the pointer *)

Section Reinitialisation.

Context {num : Type} `{JSNumber num} `{JSMath num}.
Variable config : SimulationConfig num.
Variable globalSettings : GlobalSettings num.

Lemma advance_length (r : num) (st : SimState num) :
  List.length (balls (advance config globalSettings r st)) = List.length (balls st).
Proof.
  destruct (advance_frame config globalSettings r st) as [_ [_ [_ [_ I]]]].
  apply (f_equal (@List.length _)) in I. now rewrite !length_map in I.
Qed.

Lemma NoDup_tagged (A B : Type) (a : A) (l : list B) :
  NoDup l -> NoDup (map (fun i => (a, i)) l).
Proof.
  induction 1 as [|i l N _ IH]; cbn [map]; constructor; trivial.
  intros Hin. apply in_map_iff in Hin as [j [E Hj]].
  injection E as ->. contradiction.
Qed.

(** X22: a re-initialisation in the middle of a telemetry window.  The new
    particles are numbered from 0 under the id of the configuration, so no two
    share an id; the window is not restarted: when the re-initialisation comes
    before the last frame of a window, that frame reports the energy summed
    for the old particles plus that of the new ones after one frame, divided
    by 20 times the new particle count. *)
Theorem reinitialisation_mid_window (rnd : nat -> num) (st : SimState num)
    (cv : CanvasEl) :
  visible cv = true -> statsTick st = 19%nat ->
  let st0 := initEffect config rnd st in
  let st1 := advance config globalSettings (shapeRadiusOf cv) st0 in
  map (@id num) (balls st0)
  = map (fun i => (cfg_id config, i)) (seq 0 (ballCount config))
  /\ NoDup (map (@id num) (balls st0))
  /\ option_map (@emitted num) (snd (tick config globalSettings (Some cv) st0))
     = Some (Some (ndiv (nadd (totalKe st) (frameKe (balls st1)))
                        (nmul (lit 20) (of_nat (ballCount config))),
                   collisionCount st1))
  /\ (collisionCount st <= collisionCount st1)%nat.
Proof.
  intros V T st0 st1.
  assert (I : map (@id num) (balls st0)
              = map (fun i => (cfg_id config, i)) (seq 0 (ballCount config))).
  { subst st0. unfold initEffect. cbn [balls]. rewrite map_map. reflexivity. }
  split; [exact I|]. split; [|split].
  - rewrite I. apply NoDup_tagged, seq_NoDup.
  - assert (L : (statsTick st0 < 20)%nat) by (subst st0; cbn [initEffect statsTick]; lia).
    pose proof (tick_window config globalSettings cv st0 V L) as W. cbv zeta in W.
    replace (statsTick st0 =? 19)%nat with true in W
      by (subst st0; cbn [initEffect statsTick]; now rewrite T).
    destruct W as [O _]. rewrite O. fold st1.
    replace (List.length (balls st1)) with (ballCount config).
    + reflexivity.
    + subst st1. rewrite advance_length. subst st0. unfold initEffect. cbn [balls].
      now rewrite length_map, length_seq.
  - destruct (advance_frame config globalSettings (shapeRadiusOf cv) st0)
      as [_ [_ [_ [C _]]]].
    exact C.
Qed.

End Reinitialisation.

Section Geometry.

Local Open Scope R_scope.

(** X23: the container fits the canvas.  The circle on which [tick] places
    the vertices of the container, of radius 0.44 times the smaller side
    around the centre of the canvas, lies on the canvas. *)
Theorem chamber_fits_canvas (cv : CanvasEl) :
  let r := shapeRadiusOf cv in
  let c := centerOf cv in
  0 <= r
  /\ 0 <= x c - r /\ x c + r <= INR (clientWidth cv)
  /\ 0 <= y c - r /\ y c + r <= INR (clientHeight cv).
Proof.
  unfold shapeRadiusOf, centerOf, dec. rewrite !of_nat_INR.
  cbn [x y lit nmul ndiv RNum].
  pose proof (pos_INR (Nat.min (clientWidth cv) (clientHeight cv))) as P.
  assert (A : INR (Nat.min (clientWidth cv) (clientHeight cv)) <= INR (clientWidth cv))
    by (apply le_INR; lia).
  assert (B : INR (Nat.min (clientWidth cv) (clientHeight cv)) <= INR (clientHeight cv))
    by (apply le_INR; lia).
  repeat split; lra.
Qed.

(** X24: pointing at a particle.  A pointer event at the place where a
    particle is drawn on a canvas of the size of its box records the
    particle's own position as the pointer position, wherever the canvas is
    on the page; and leaving the canvas removes the pointer, after which a
    step applies gravity and drag alone. *)
Theorem pointer_round_trip (config : SimulationConfig R) (globalSettings : GlobalSettings R)
    (cv : CanvasEl) (left top dt : R) (ball : Ball R) (st : SimState R) :
  let p := screenPos (centerOf cv) ball in
  let st' := onMouseMove (left + x p) (top + y p) left top
                         (INR (clientWidth cv)) (INR (clientHeight cv)) st in
  mousePos st' = Some (pos ball)
  /\ balls st' = balls st
  /\ mousePos (onMouseLeave st') = None
  /\ vel (applyForces config globalSettings dt (mousePos (onMouseLeave st')) ball)
     = kick config globalSettings dt (vel ball).
Proof.
  cbv zeta. unfold onMouseMove, onMouseLeave, screenPos, centerOf.
  cbn [mousePos balls x y]. rewrite !of_nat_INR.
  repeat split.
  f_equal. apply vec_eq; cbn [x y lit nadd nsub ndiv RNum]; lra.
Qed.

End Geometry.

Section ReinitialisationWitness.

Local Open Scope R_scope.

Lemma reinitialisation_mid_window_witness :
  NoDup (map (@id R) (balls (initEffect labConfig (fun _ : nat => (1 / 2)%R) lateWindow)))
  /\ (collisionCount lateWindow
      <= collisionCount (advance labConfig labSettings (shapeRadiusOf labCanvas)
                           (initEffect labConfig (fun _ : nat => (1 / 2)%R) lateWindow)))%nat.
Proof.
  destruct (@reinitialisation_mid_window R _ _ labConfig labSettings
              (fun _ : nat => (1 / 2)%R) lateWindow labCanvas) as [_ [A [_ B]]].
  - reflexivity.
  - reflexivity.
  - split; [exact A | exact B].
Defined.

End ReinitialisationWitness.

(** ** Equilibrium *)

Section Rest.

Local Open Scope R_scope.
Variable config : SimulationConfig R.
Variable globalSettings : GlobalSettings R.

Hypothesis weightless : gravity config * gravityMultiplier globalSettings = 0.

Lemma fold_left_preserves (A S : Type) (P : S -> Prop) (f : S -> A -> S) (l : list A) :
  (forall s a, P s -> P (f s a)) -> forall s, P s -> P (fold_left f l s).
Proof.
  intros K. induction l as [|a l IH]; intros s Ps; cbn [fold_left]; auto.
Qed.

Lemma Forall_update (A : Type) (P : A -> Prop) (i : nat) (a : A) (l : list A) :
  Forall P l -> P a -> Forall P (update i a l).
Proof.
  intros F Pa. revert i. induction F as [|b l Pb F IH]; intros [|i]; cbn [update];
    constructor; auto.
Qed.

Lemma kick_rest (dt : R) : kick config globalSettings dt origin = origin.
Proof.
  unfold kick, gravityX, gravityY.
  apply vec_eq; cbn [x y mult origin lit nadd nsub nmul ndiv RNum].
  - replace (Math_cos (gravityAngle globalSettings * Math_PI / 180)
             * gravity config * gravityMultiplier globalSettings)
      with (Math_cos (gravityAngle globalSettings * Math_PI / 180)
            * (gravity config * gravityMultiplier globalSettings)) by ring.
    rewrite weightless. ring.
  - replace (Math_sin (gravityAngle globalSettings * Math_PI / 180)
             * gravity config * gravityMultiplier globalSettings)
      with (Math_sin (gravityAngle globalSettings * Math_PI / 180)
            * (gravity config * gravityMultiplier globalSettings)) by ring.
    rewrite weightless. ring.
Qed.

Lemma collideEdge_rest (p1 p2 : Vector2 R) (b : Ball R) :
  vel b = origin -> vel (fst (collideEdge config globalSettings p1 p2 b)) = origin.
Proof.
  intros V. unfold collideEdge.
  destruct (nlt (edgeDist p1 p2 b) (radius b)); cbn [fst]; trivial.
  cbn [vel set_pos]. rewrite V.
  rewrite if_Rltb_false; [cbn [fst vel set_pos]; exact V|].
  unfold dot. cbn [x y origin lit nadd nmul RNum]. lra.
Qed.

Lemma boundCollisions_rest (vs : list (Vector2 R)) (b : Ball R) :
  vel b = origin -> vel (fst (boundCollisions config globalSettings vs b)) = origin.
Proof.
  intros V. unfold boundCollisions.
  apply (fold_left_preserves (fun st : Ball R * list R => vel (fst st) = origin)); trivial.
  intros st i Ps. unfold edgeStep.
  pose proof (@collideEdge_rest (nth i vs origin)
                (nth ((i + 1) mod List.length vs) vs origin) (fst st) Ps) as C.
  destruct (collideEdge _ _ _ _ (fst st)) as [b' h]. exact C.
Qed.

Lemma collidePair_rest (a b : Ball R) :
  vel a = origin -> vel b = origin ->
  vel (fst (fst (collidePair config globalSettings a b))) = origin
  /\ vel (snd (fst (collidePair config globalSettings a b))) = origin.
Proof.
  intros Va Vb. unfold collidePair.
  destruct (nlt _ _); cbn [fst snd]; [|now split].
  cbn [vel set_pos]. rewrite Va, Vb.
  rewrite if_Rltb_false; [cbn [fst snd vel set_pos]; now split|].
  unfold dot. cbn [x y sub origin lit nadd nsub nmul RNum]. lra.
Qed.

Lemma pairCollisions_rest (bs : list (Ball R)) :
  Forall (fun b => vel b = origin) bs ->
  Forall (fun b => vel b = origin) (fst (pairCollisions config globalSettings bs)).
Proof.
  intros F. unfold pairCollisions.
  apply (fold_left_preserves
           (fun st : list (Ball R) * list R => Forall (fun b => vel b = origin) (fst st)));
    trivial.
  intros st i Ps. unfold pairRow.
  apply (fold_left_preserves
           (fun st : list (Ball R) * list R => Forall (fun b => vel b = origin) (fst st)));
    trivial.
  clear. intros st j Ps. unfold resolveAt.
  destruct (nth_error (fst st) i) as [a|] eqn:Hi; trivial.
  destruct (nth_error (fst st) j) as [b|] eqn:Hj; trivial.
  rewrite Forall_forall in Ps.
  destruct (@collidePair_rest a b) as [A B].
  - apply Ps. eapply nth_error_In; eassumption.
  - apply Ps. eapply nth_error_In; eassumption.
  - destruct (collidePair config globalSettings a b) as [[a' b'] h].
    cbn [fst snd] in *.
    apply Forall_update; trivial. apply Forall_update; trivial.
    now apply Forall_forall.
Qed.

Lemma runPhysicsStep_rest (dt r : R) (vs : list (Vector2 R)) (st : SimState R) :
  mousePos st = None -> Forall (fun b => vel b = origin) (balls st) ->
  Forall (fun b => vel b = origin)
         (balls (runPhysicsStep config globalSettings dt r vs st)).
Proof.
  intros M F. unfold runPhysicsStep. rewrite M.
  set (f := fun ball => boundCollisions config globalSettings vs
              (applyForces config globalSettings dt None ball)).
  pose proof (forEach_fst f (balls st)) as F1.
  destruct (forEach f (balls st)) as [bs1 h1]. cbn [fst] in F1.
  pose proof (@pairCollisions_rest bs1) as P.
  destruct (pairCollisions config globalSettings bs1) as [bs2 h2].
  cbn [fst balls] in *. apply P. rewrite F1.
  apply Forall_forall. intros b' Hb. apply in_map_iff in Hb as [b [<- Hin]].
  unfold f. apply boundCollisions_rest.
  rewrite applyForces_no_pointer.
  rewrite Forall_forall in F. rewrite (F b Hin). apply kick_rest.
Qed.

Lemma subSteps_rest (n : nat) (dt r : R) :
  forall st : SimState R,
  mousePos st = None -> Forall (fun b => vel b = origin) (balls st) ->
  Forall (fun b => vel b = origin) (balls (subSteps config globalSettings n dt r st)).
Proof.
  induction n as [|n IH]; intros st M F; cbn [subSteps]; trivial.
  apply IH.
  - match goal with
    | |- mousePos (runPhysicsStep _ _ dt r ?vs ?s0) = None =>
        destruct (runPhysicsStep_frame config globalSettings dt r vs s0) as [_ [Mp _]];
        cbv zeta in Mp; rewrite Mp
    end.
    exact M.
  - apply runPhysicsStep_rest; trivial.
Qed.

Lemma tick_rest (cv : option CanvasEl) (st : SimState R) :
  mousePos st = None -> Forall (fun b => vel b = origin) (balls st) ->
  mousePos (fst (tick config globalSettings cv st)) = None
  /\ Forall (fun b => vel b = origin) (balls (fst (tick config globalSettings cv st))).
Proof.
  intros M F.
  destruct cv as [c|]; [destruct (visible c) eqn:V|];
    try (rewrite tick_hidden; auto; fail).
  split.
  - rewrite (tick_visible config globalSettings c st V). cbn [fst].
    destruct (advance_frame config globalSettings (shapeRadiusOf c) st) as [Mp _].
    unfold telemetry.
    match goal with |- context [if ?c then _ else _] => destruct c end;
      cbn [fst mousePos drawn]; congruence.
  - rewrite tick_balls by trivial.
    apply Forall_forall. intros b' Hb. apply in_map_iff in Hb as [b [<- Hin]].
    cbn [drawBall vel set_trail].
    assert (A : Forall (fun b => vel b = origin)
                       (balls (advance config globalSettings (shapeRadiusOf c) st))).
    { unfold advance. destruct (nlt _ _); trivial. now apply subSteps_rest. }
    rewrite Forall_forall in A. now apply A.
Qed.

End Rest.

Section Equilibrium.

Local Open Scope R_scope.



End Equilibrium.


(** ** Restarting *)

Section Restart.

Import SimulationCard.
Local Open Scope R_scope.



End Restart.

